(** * jsauce core: process manager, local processes and PIDs

    A shallow embedding of [src/jsauce/core.ts].  The classes of the file
    ([ProcessManager], [LocalProcess], [LocalPid]) become records, their
    methods become computations in a small state-and-exception monad over a
    [World] that holds the objects of the program, and the promise chain of
    [_launchLocal] becomes a transition on the launch promise that the
    handshake events (a reply, a rejection, the timer) drive.

    The services of the [thicket] toolkit (UUID generator, exchange,
    mailboxes, couriers) are not part of the file: they are taken as
    parameters ([Thicket]) and as logs kept in the [World].

    Scope of the model: the two [Promise.bind(this).then] callbacks that
    [launch] and [_launchLocal] chain run as one step (the first reads
    [spec.pType] and nothing else); a delegate builder returns (a delegate, or
    [undefined] or [null]) or throws, and does not call back into the
    manager; a courier accepts
    every message, and a failed delivery shows as the rejection of the
    promise of [sendAndReceive].  Two failures of thicket are part of the
    model: an exchange refuses a second mailbox for an identity in use, and
    [getOrError] throws on an option that is undefined or null. *)

From Stdlib Require Import ZArith.
From stdpp Require Import gmap strings list fin_maps.

Open Scope string_scope.
Open Scope list_scope.

(** ** JavaScript values *)

(** A [number] as far as this file looks at it: durations in whole time
    units, and [NaN], which matters for [||]. *)
Inductive JsNumber :=
  | JsNaN
  | JsFinite (z : Z).

(** [ToBoolean] on numbers: [0] and [NaN] are falsy. *)
Definition truthy (n : JsNumber) : bool :=
  match n with
  | JsNaN => false
  | JsFinite z => negb (z =? 0)%Z
  end.

(** [a || b] where [a] is an optional number ([undefined] is falsy). *)
Definition js_or (a : option JsNumber) (b : JsNumber) : JsNumber :=
  match a with
  | Some n => if truthy n then n else b
  | None => b
  end.

(** The payload of a message is of type [any]. *)
#[warnings="-register-all"]
Inductive JsValue :=
  | JUndefined
  | JNull
  | JBool (b : bool)
  | JNum (n : JsNumber)
  | JStr (s : string)
  | JObj (fields : list (string * JsValue)).

(** ** Errors and outcomes *)

(** [InvalidProcessSpecType] and [HandshakeTimeoutError] are the two classes
    of [Errors]; [TimeoutError] is bluebird's [Promise.TimeoutError];
    [OtherError] stands for every other value that can be thrown. *)
Inductive Error :=
  | InvalidProcessSpecType
  | HandshakeTimeoutError
  | TimeoutError
  | OtherError (name : string).

(** [err instanceof Promise.TimeoutError], the filter of [.catch]. *)
Definition instanceOf_TimeoutError (e : Error) : bool :=
  match e with
  | TimeoutError => true
  | _ => false
  end.

(** Normal completion or a thrown error; also the settlement of a promise
    (fulfilled or rejected). *)
Inductive Outcome (A : Type) :=
  | Ok (a : A)
  | Err (e : Error).
Arguments Ok {A} a.
Arguments Err {A} e.

(** ** Defaults and messages *)

Definition DefaultProcessHandshakeTimeout : JsNumber := JsFinite 1000.

Inductive Envelope :=
  | Handshake
  | Message (data : JsValue).

Definition mType (e : Envelope) : string :=
  match e with
  | Handshake => "handshake"
  | Message _ => "message"
  end.

Definition Messages_Handshake : Envelope := Handshake.

(** Modelled from the spec: [Lang.makeMTypeBuilder] is thicket's.  The
    builder is declared with [defaults: {data: null}]; a [data] that is
    absent ([undefined]) is replaced by [null]. *)
Definition Messages_Message (data : JsValue) : Envelope :=
  match data with
  | JUndefined => Message JNull
  | d => Message d
  end.

(** ** The thicket services *)

(** What the two accessors of a [thicket.Mailbox] return. *)
Record Mailbox := {
  mb_ownerIdentity : string;
  mb_id : string
}.

(** An exchange is known by a handle. *)
Definition Exchange := nat.

(** The parameters of the development: the type of delegates (objects
    supplied by the caller, never inspected by this file), the string
    returned by the [n]-th call of [UUID.v4()], the mailbox that
    [exchange.mailbox(identity)] returns when it returns one, and the two
    errors of thicket that this file can meet: the one an exchange throws
    when it refuses a mailbox, and the one [getOrError] throws for the
    option of the given name. *)
Class Thicket := {
  Delegate : Type;
  UUID_v4 : nat -> string;
  Exchange_mailbox : Exchange -> string -> Mailbox;
  Exchange_refusal : Error;
  Options_missing : string -> Error
}.

(** References to objects of the heap: managers and launch promises. *)
Abbreviation mref := nat (only parsing).
Abbreviation lref := nat (only parsing).

Section Core.
Context `{Thicket}.

(** ** Interfaces of the file *)

(** [IProcessContext] is empty. *)
Inductive ProcessContext := EmptyContext.

(** [ILocalProcessSpec]; a spec with another tag only has its [pType]
    looked at.  The builder is code of the caller: it may throw, and it may
    return [undefined] or [null] ([None]) instead of a delegate. *)
Record ProcessSpec := {
  pType : string;
  handshakeTimeout : option JsNumber;
  delegateBuilder : ProcessContext -> Outcome (option Delegate)
}.

(** A courier binds a mailbox to the object that receives its messages. *)
Inductive CourierDelegate :=
  | ManagerDelegate (m : mref)
  | ProcessDelegate (d : Delegate).

Record Courier := {
  c_mailbox : Mailbox;
  c_delegate : CourierDelegate
}.

(** ** The classes *)

Record LocalPid := {
  pid_mailboxId : string;
  pid_processManager : mref
}.

Record LocalProcess := {
  lp_id : string;
  lp_pmMboxId : string;
  lp_mailbox : Mailbox;
  lp_delegate : Delegate;
  lp_courier : Courier
}.

Record ProcessManager := {
  pm_procs : gmap string LocalProcess;
  pm_exchange : Exchange;
  pm_mailbox : Mailbox;
  pm_courier : Courier;
  pm_handshakeTimeout : JsNumber
}.

Definition set_procs (pm : ProcessManager) (procs : gmap string LocalProcess)
  : ProcessManager :=
  {| pm_procs := procs;
     pm_exchange := pm_exchange pm;
     pm_mailbox := pm_mailbox pm;
     pm_courier := pm_courier pm;
     pm_handshakeTimeout := pm_handshakeTimeout pm |}.

(** ** The world *)

(** One message handed to a courier. *)
Record Delivery := {
  d_courier : Courier;
  d_to : string;
  d_body : Envelope;
  d_awaitsReply : bool
}.

(** What [_launchLocal] has built when it starts to wait for the reply. *)
Record PendingLaunch := {
  pl_manager : mref;
  pl_pid : LocalPid;
  pl_proc : LocalProcess;
  pl_timeout : JsNumber
}.

(** The promise returned by [launch]. *)
Inductive LaunchState :=
  | Pending (p : PendingLaunch)
  | Settled (r : Outcome LocalPid).

Record World := {
  uuid_calls : nat;
  allocated : list (Exchange * Mailbox);
  deliveries : list Delivery;
  managers : list ProcessManager;
  launches : list LaunchState
}.

Definition init : World :=
  {| uuid_calls := 0; allocated := []; deliveries := [];
     managers := []; launches := [] |}.

Definition set_uuid_calls (w : World) (n : nat) : World :=
  {| uuid_calls := n; allocated := allocated w; deliveries := deliveries w;
     managers := managers w; launches := launches w |}.

Definition set_allocated (w : World) (a : list (Exchange * Mailbox)) : World :=
  {| uuid_calls := uuid_calls w; allocated := a; deliveries := deliveries w;
     managers := managers w; launches := launches w |}.

Definition set_deliveries (w : World) (d : list Delivery) : World :=
  {| uuid_calls := uuid_calls w; allocated := allocated w; deliveries := d;
     managers := managers w; launches := launches w |}.

Definition set_managers (w : World) (ms : list ProcessManager) : World :=
  {| uuid_calls := uuid_calls w; allocated := allocated w;
     deliveries := deliveries w; managers := ms; launches := launches w |}.

Definition set_launches (w : World) (ls : list LaunchState) : World :=
  {| uuid_calls := uuid_calls w; allocated := allocated w;
     deliveries := deliveries w; managers := managers w; launches := ls |}.

(** ** The monad of methods *)

(** A method runs on a world and completes normally or throws; the effects
    made before a throw stay.  [None] is a reference to an object that was
    never constructed, which no JavaScript program can hold. *)
Definition M (A : Type) : Type := World -> option (Outcome A * World).

Definition ret {A} (a : A) : M A := fun w => Some (Ok a, w).

Definition throw {A} (e : Error) : M A := fun w => Some (Err e, w).

Definition bind {A B} (m : M A) (f : A -> M B) : M B := fun w =>
  match m w with
  | Some (Ok a, w') => f a w'
  | Some (Err e, w') => Some (Err e, w')
  | None => None
  end.

Definition lift {A} (r : Outcome A) : M A := fun w => Some (r, w).

Notation "x <- m ;; k" := (bind m (fun x => k))
  (at level 100, m at next level, right associativity).
Notation "m ;;; k" := (bind m (fun _ => k))
  (at level 100, right associativity).

(** [UUID.v4()] *)
Definition UUID_v4_call : M string := fun w =>
  Some (Ok (UUID_v4 (uuid_calls w)), set_uuid_calls w (S (uuid_calls w))).

(** A mailbox of exchange [x] is owned by [identity]. *)
Definition identity_in_use (x : Exchange) (identity : string) (w : World) : bool :=
  existsb (fun a => Nat.eqb (fst a) x &&
                    String.eqb (mb_ownerIdentity (snd a)) identity)
          (allocated w).

(** Modelled from the spec: the exchange is thicket's.  An address is
    never reused while its owner lives, and nothing here gives a mailbox
    up: [exchange.mailbox(identity)] throws when a mailbox of the exchange
    is owned by [identity], and allocates one otherwise. *)
Definition Exchange_mailbox_call (x : Exchange) (identity : string) : M Mailbox :=
  fun w =>
    if identity_in_use x identity w then Some (Err Exchange_refusal, w)
    else
      let mbox := Exchange_mailbox x identity in
      Some (Ok mbox, set_allocated w (allocated w ++ [(x, mbox)])).

(** Modelled from the spec: [Options] is thicket's.  Construction requires
    its options: [opts.getOrError(name)] returns the option, and throws
    when it is undefined or null. *)
Definition Options_getOrError {A} (name : string) (o : option A) : Outcome A :=
  match o with
  | Some a => Ok a
  | None => Err (Options_missing name)
  end.

(** [courier.send(to, body)] *)
Definition Courier_send (c : Courier) (to : string) (body : Envelope) : M unit :=
  fun w =>
    Some (Ok tt, set_deliveries w (deliveries w ++
      [{| d_courier := c; d_to := to; d_body := body; d_awaitsReply := false |}])).

(** [courier.sendAndReceive(to, body)]: the request leaves; the promise it
    returns is settled later, by a [HandshakeEvent]. *)
Definition Courier_sendAndReceive (c : Courier) (to : string) (body : Envelope)
  : M unit :=
  fun w =>
    Some (Ok tt, set_deliveries w (deliveries w ++
      [{| d_courier := c; d_to := to; d_body := body; d_awaitsReply := true |}])).

(** Reading and writing the fields of a manager through a reference. *)
Definition deref (m : mref) : M ProcessManager := fun w =>
  match managers w !! m with
  | Some pm => Some (Ok pm, w)
  | None => None
  end.

Definition assign_procs (m : mref) (procs : gmap string LocalProcess) : M unit :=
  fun w =>
    match managers w !! m with
    | Some pm => Some (Ok tt, set_managers w (<[m := set_procs pm procs]> (managers w)))
    | None => None
    end.

(** ** LocalPid *)

Definition new_LocalPid (mailboxId : string) (processManager : mref) : LocalPid :=
  {| pid_mailboxId := mailboxId; pid_processManager := processManager |}.

Definition LocalPid_id (this : LocalPid) : string := pid_mailboxId this.

(** ** LocalProcess *)

(** The object that the constructor makes once it has its options. *)
Definition make_LocalProcess (id processManagerMailboxId : string)
    (mailbox : Mailbox) (delegate : Delegate) : LocalProcess :=
  {| lp_id := id;
     lp_pmMboxId := processManagerMailboxId;
     lp_mailbox := mailbox;
     lp_delegate := delegate;
     lp_courier := {| c_mailbox := mailbox; c_delegate := ProcessDelegate delegate |} |}.

(** The constructor.  [_launchLocal] passes a string for [id] and for
    [processManagerMailboxId] and a mailbox for [mailbox]; [delegate] is
    what the builder returned, and [getOrError] throws when that is
    undefined or null. *)
Definition new_LocalProcess (id processManagerMailboxId : string)
    (mailbox : Mailbox) (delegate : option Delegate) : Outcome LocalProcess :=
  match Options_getOrError "delegate" delegate with
  | Ok d => Ok (make_LocalProcess id processManagerMailboxId mailbox d)
  | Err e => Err e
  end.

Definition LocalProcess_mailboxId (this : LocalProcess) : string :=
  mb_id (lp_mailbox this).

(** ** ProcessManager *)

(** The constructor, with the [exchange] option given.  The argument
    [UUID.v4()] of [getOrElse] is evaluated whether or not [mailboxId] is
    given. *)
Definition new_ProcessManager (exchange : Exchange) (mailboxId : option string)
  : M mref :=
  fresh <- UUID_v4_call ;;
  mbox <- Exchange_mailbox_call exchange (default fresh mailboxId) ;;
  fun w =>
    let this := length (managers w) in
    Some (Ok this, set_managers w (managers w ++
      [{| pm_procs := ∅;
          pm_exchange := exchange;
          pm_mailbox := mbox;
          pm_courier := {| c_mailbox := mbox; c_delegate := ManagerDelegate this |};
          pm_handshakeTimeout := DefaultProcessHandshakeTimeout |}])).

Definition ProcessManager_mailboxId (this : mref) : M string :=
  pm <- deref this ;;
  ret (mb_id (pm_mailbox pm)).

Definition ProcessManager_sendMessage (this : mref) (processMailboxId : string)
    (data : JsValue) : M unit :=
  pm <- deref this ;;
  Courier_send (pm_courier pm) processMailboxId (Messages_Message data).

Definition ProcessManager_doesOwn (this : mref) (pid : LocalPid) : M bool :=
  pm <- deref this ;;
  ret (bool_decide (is_Some (pm_procs pm !! LocalPid_id pid))).

Definition ProcessManager_dispose (this : mref) : M unit :=
  ret tt.

Definition createDelegateContext : ProcessContext := EmptyContext.

(** The body of the [then] callback of [_launchLocal], up to the moment the
    chain on [sendAndReceive] is built. *)
Definition launchLocal_start (this : mref) (spec : ProcessSpec) : M PendingLaunch :=
  pm <- deref this ;;
  ident <- UUID_v4_call ;;
  mbox <- Exchange_mailbox_call (pm_exchange pm) ident ;;
  let processContext := createDelegateContext in
  delegate <- lift (delegateBuilder spec processContext) ;;
  let pid := new_LocalPid (mb_ownerIdentity mbox) this in
  pmMailboxId <- ProcessManager_mailboxId this ;;
  proc <- lift (new_LocalProcess (LocalPid_id pid) pmMailboxId mbox delegate) ;;
  Courier_sendAndReceive (pm_courier pm) (mb_ownerIdentity mbox) Messages_Handshake ;;;
  ret {| pl_manager := this;
         pl_pid := pid;
         pl_proc := proc;
         pl_timeout := js_or (handshakeTimeout spec) (pm_handshakeTimeout pm) |}.

(** [Promise.bind(this).then(body)]: the body runs, and what it throws
    rejects the promise.  The promise of [launch] adopts the one of
    [_launchLocal]; both are one entry of [launches]. *)
Definition Promise_start (body : M PendingLaunch) : M lref := fun w =>
  match body w with
  | Some (r, w') =>
      let st := match r with
                | Ok p => Pending p
                | Err e => Settled (Err e)
                end in
      Some (Ok (length (launches w')), set_launches w' (launches w' ++ [st]))
  | None => None
  end.

Definition ProcessManager_launch (this : mref) (spec : ProcessSpec) : M lref :=
  Promise_start
    (if String.eqb (pType spec) "local"
     then launchLocal_start this spec
     else throw InvalidProcessSpecType).

(** ** The promise chain on the handshake *)

(** What happens first to the promise of [sendAndReceive]: the transport
    settles it (with the reply, or with a failure), or the timer of
    [.timeout] fires. *)
Inductive HandshakeEvent :=
  | TransportSettles (r : Outcome JsValue)
  | TimerFires.

(** [.timeout(ms)]: the settlement of the original promise, or a rejection
    with [Promise.TimeoutError] when the timer comes first. *)
Definition Promise_timeout (ev : HandshakeEvent) : Outcome JsValue :=
  match ev with
  | TransportSettles r => r
  | TimerFires => Err TimeoutError
  end.

(** [.then(f)] on a settled promise. *)
Definition Promise_then {A B} (r : Outcome A) (f : A -> M B) : M B :=
  match r with
  | Ok a => f a
  | Err e => throw e
  end.

(** [.catch(filter, h)] *)
Definition Promise_catch {A} (filter : Error -> bool) (m : M A) (h : Error -> M A)
  : M A := fun w =>
  match m w with
  | Some (Err e, w') => if filter e then h e w' else Some (Err e, w')
  | r => r
  end.

(** The [then] callback: [this._procs = mori.assoc(this._procs, pid.id(), proc)]. *)
Definition register (p : PendingLaunch) : M LocalPid :=
  pm <- deref (pl_manager p) ;;
  assign_procs (pl_manager p)
    (<[LocalPid_id (pl_pid p) := pl_proc p]> (pm_procs pm)) ;;;
  ret (pl_pid p).

Definition launchLocal_settle (p : PendingLaunch) (ev : HandshakeEvent) : M LocalPid :=
  Promise_catch instanceOf_TimeoutError
    (Promise_then (Promise_timeout ev) (fun _ => register p))
    (fun err => throw HandshakeTimeoutError).

(** An event reaches launch promise [l].  A promise settles once: an event
    that comes after the settlement changes nothing. *)
Definition settle (l : lref) (ev : HandshakeEvent) (w : World) : option World :=
  match launches w !! l with
  | Some (Pending p) =>
      match launchLocal_settle p ev w with
      | Some (r, w') => Some (set_launches w' (<[l := Settled r]> (launches w')))
      | None => None
      end
  | Some (Settled _) => Some w
  | None => None
  end.

(** ** LocalPid.send *)

Definition LocalPid_send (this : LocalPid) (data : JsValue) : M unit :=
  ProcessManager_sendMessage (pid_processManager this) (pid_mailboxId this) data.

(** ** Runs of the program *)

Inductive Op :=
  | ONew (exchange : Exchange) (mailboxId : option string)
  | OLaunch (m : mref) (spec : ProcessSpec)
  | OSendMessage (m : mref) (processMailboxId : string) (data : JsValue)
  | ODoesOwn (m : mref) (pid : LocalPid)
  | OMailboxId (m : mref)
  | ODispose (m : mref)
  | OPidSend (pid : LocalPid) (data : JsValue)
  | OHandshake (l : lref) (ev : HandshakeEvent).

Definition after {A} (m : M A) (w : World) : option World :=
  snd <$> m w.

Definition step (op : Op) (w : World) : option World :=
  match op with
  | ONew x mailboxId => after (new_ProcessManager x mailboxId) w
  | OLaunch m spec => after (ProcessManager_launch m spec) w
  | OSendMessage m to data => after (ProcessManager_sendMessage m to data) w
  | ODoesOwn m pid => after (ProcessManager_doesOwn m pid) w
  | OMailboxId m => after (ProcessManager_mailboxId m) w
  | ODispose m => after (ProcessManager_dispose m) w
  | OPidSend pid data => after (LocalPid_send pid data) w
  | OHandshake l ev => settle l ev w
  end.

Fixpoint run (ops : list Op) (w : World) : option World :=
  match ops with
  | [] => Some w
  | op :: ops' =>
      match step op w with
      | Some w' => run ops' w'
      | None => None
      end
  end.

Inductive reachable : World -> Prop :=
  | reachable_init : reachable init
  | reachable_step op w w' :
      reachable w -> step op w = Some w' -> reachable w'.

(** ** The shape of a step *)

(** Every step is one of six transitions of the part of the world that the
    manager owns (a constructor that the exchange refuses is a quiet one:
    it only draws an identifier). *)
Inductive transition (w w' : World) : Prop :=
  | t_quiet :
      managers w' = managers w ->
      launches w' = launches w ->
      uuid_calls w <= uuid_calls w' ->
      allocated w' = allocated w ->
      transition w w'
  | t_new pm0 :
      managers w' = managers w ++ [pm0] ->
      pm_procs pm0 = ∅ ->
      pm_handshakeTimeout pm0 = DefaultProcessHandshakeTimeout ->
      launches w' = launches w ->
      uuid_calls w' = S (uuid_calls w) ->
      transition w w'
  | t_reject e :
      managers w' = managers w ->
      launches w' = launches w ++ [Settled (Err e)] ->
      uuid_calls w <= uuid_calls w' ->
      transition w w'
  | t_pending m pm p :
      managers w !! m = Some pm ->
      managers w' = managers w ->
      launches w' = launches w ++ [Pending p] ->
      uuid_calls w' = S (uuid_calls w) ->
      pl_manager p = m ->
      pl_pid p = new_LocalPid
        (mb_ownerIdentity (Exchange_mailbox (pm_exchange pm) (UUID_v4 (uuid_calls w)))) m ->
      transition w w'
  | t_resolve l p pm :
      launches w !! l = Some (Pending p) ->
      managers w !! pl_manager p = Some pm ->
      managers w' = <[pl_manager p :=
        set_procs pm (<[LocalPid_id (pl_pid p) := pl_proc p]> (pm_procs pm))]> (managers w) ->
      launches w' = <[l := Settled (Ok (pl_pid p))]> (launches w) ->
      uuid_calls w' = uuid_calls w ->
      allocated w' = allocated w ->
      transition w w'
  | t_fail l p e :
      launches w !! l = Some (Pending p) ->
      managers w' = managers w ->
      launches w' = <[l := Settled (Err e)]> (launches w) ->
      uuid_calls w' = uuid_calls w ->
      allocated w' = allocated w ->
      transition w w'.

(** ** Invariants of reachable worlds *)

(** The PID a launch promise stands for, while it can still be handed to
    the caller. *)
Definition launch_pid (s : LaunchState) : option LocalPid :=
  match s with
  | Pending p => Some (pl_pid p)
  | Settled (Ok pid) => Some pid
  | Settled (Err _) => None
  end.

Record wf (w : World) : Prop := {
  wf_manager : forall l p,
    launches w !! l = Some (Pending p) ->
    pid_processManager (pl_pid p) = pl_manager p /\
    pl_manager p < length (managers w);
  wf_owned : forall l pid,
    launches w !! l = Some (Settled (Ok pid)) ->
    exists pm, managers w !! pid_processManager pid = Some pm /\
               is_Some (pm_procs pm !! LocalPid_id pid);
  wf_origin : forall m pm k,
    managers w !! m = Some pm ->
    is_Some (pm_procs pm !! k) ->
    exists l pid, launches w !! l = Some (Settled (Ok pid)) /\
                  LocalPid_id pid = k /\ pid_processManager pid = m;
  wf_timeout : forall m pm,
    managers w !! m = Some pm ->
    pm_handshakeTimeout pm = DefaultProcessHandshakeTimeout
}.

(** ** Fresh addresses *)

(** What the code relies on from thicket for the identity of a process:
    [UUID.v4()] never returns the same string twice, and a mailbox made for
    an identity reports that identity as its owner. *)
Definition fresh_addresses : Prop :=
  (forall i j, UUID_v4 i = UUID_v4 j -> i = j) /\
  (forall x s, mb_ownerIdentity (Exchange_mailbox x s) = s).

Record fresh (w : World) : Prop := {
  fresh_issued : forall l s pid,
    launches w !! l = Some s -> launch_pid s = Some pid ->
    exists k, k < uuid_calls w /\ LocalPid_id pid = UUID_v4 k;
  fresh_distinct : forall l1 l2 s1 s2 pid1 pid2,
    launches w !! l1 = Some s1 -> launches w !! l2 = Some s2 ->
    launch_pid s1 = Some pid1 -> launch_pid s2 = Some pid2 ->
    LocalPid_id pid1 = LocalPid_id pid2 -> l1 = l2
}.

(** No promise of [w'] stands for a PID that it did not stand for in [w]. *)
Definition pids_within (w w' : World) : Prop :=
  forall l s pid,
    launches w' !! l = Some s -> launch_pid s = Some pid ->
    exists s0, launches w !! l = Some s0 /\ launch_pid s0 = Some pid.

(** The address [a] has been issued, and only promise [l] may stand for a
    PID with it. *)
Definition reserved (a : string) (l : lref) (w : World) : Prop :=
  (exists k, k < uuid_calls w /\ a = UUID_v4 k) /\
  (forall l' s pid,
     launches w !! l' = Some s -> launch_pid s = Some pid ->
     LocalPid_id pid = a -> l' = l).

(** What the spec says of a mailbox: it has one address.  Both accessors
    of a [thicket.Mailbox] then return it. *)
Definition single_address : Prop :=
  forall x s, mb_id (Exchange_mailbox x s) = mb_ownerIdentity (Exchange_mailbox x s).

(** The number of entries of the process table under key [k]. *)
Definition entries_for (k : string) (pm : ProcessManager) : nat :=
  length (filter (fun kv => kv.1 = k) (map_to_list (pm_procs pm))).

(** The message that [sendMessage] hands to the courier of manager [pm]. *)
Definition message_to (pm : ProcessManager) (to : string) (data : JsValue)
  : Delivery :=
  {| d_courier := pm_courier pm;
     d_to := to;
     d_body := Message (match data with JUndefined => JNull | d => d end);
     d_awaitsReply := false |}.

End Core.

(** ** A small system *)

(** An instance of the thicket services to run the program on: identifiers
    [id-], [id-u], [id-uu], ... for the successive calls; mailboxes owned
    by the identity they were made for, with an [id()] of their own; one
    kind of delegate. *)
Module Demo.

Inductive EchoDelegate := Echo.

Fixpoint tally (n : nat) : string :=
  match n with
  | 0 => EmptyString
  | S n' => String.append "u" (tally n')
  end.

Definition thicket : Thicket :=
  {| Delegate := EchoDelegate;
     UUID_v4 := fun n => String.append "id-" (tally n);
     Exchange_mailbox := fun _ identity =>
       {| mb_ownerIdentity := identity; mb_id := String.append "mbox-" identity |};
     Exchange_refusal := OtherError "identity in use";
     Options_missing := fun name => OtherError (String.append "missing option " name) |}.

#[local] Existing Instance thicket.

Definition spec (timeout : option JsNumber) : ProcessSpec :=
  {| pType := "local";
     handshakeTimeout := timeout;
     delegateBuilder := fun _ => Ok (Some Echo) |}.

Definition remote : ProcessSpec :=
  {| pType := "remote";
     handshakeTimeout := None;
     delegateBuilder := fun _ => Ok (Some Echo) |}.

Definition reply : HandshakeEvent := TransportSettles (Ok JNull).

(** One manager. *)
Definition ops_manager : list Op := [ONew 0 None].

(** One manager, one launch that waits for its reply. *)
Definition ops_pending : list Op := ops_manager ++ [OLaunch 0 (spec None)].

(** One manager, two launches, both resolved. *)
Definition ops_two : list Op :=
  ops_pending ++ [OLaunch 0 (spec (Some (JsFinite 50))); OHandshake 0 reply;
                  OHandshake 1 reply].

Definition world (ops : list Op) : World := default init (run ops init).

(** The PIDs of the two launches. *)
Definition pid0 : LocalPid := new_LocalPid "id-u" 0.
Definition pid1 : LocalPid := new_LocalPid "id-uu" 0.

(** What the first launch has built while it waits. *)
Definition pending0 : PendingLaunch :=
  {| pl_manager := 0;
     pl_pid := pid0;
     pl_proc := make_LocalProcess "id-u" "mbox-id-"
                  {| mb_ownerIdentity := "id-u"; mb_id := "mbox-id-u" |} Echo;
     pl_timeout := JsFinite 1000 |}.

End Demo.

(** ** The effect of a step, in full *)

Section Effects.
Context `{Thicket}.

(** The request that [_launchLocal] hands to the courier of manager [pm]. *)
Definition handshake_to (pm : ProcessManager) (to : string) : Delivery :=
  {| d_courier := pm_courier pm;
     d_to := to;
     d_body := Handshake;
     d_awaitsReply := true |}.

(** The mailbox that the next call of [exchange.mailbox(UUID.v4())] on the
    exchange [x] returns. *)
Definition next_mailbox (x : Exchange) (w : World) : Mailbox :=
  Exchange_mailbox x (UUID_v4 (uuid_calls w)).

(** What a launch of [spec] on manager [m] builds when the builder returns
    the delegate [d]. *)
Definition pending_of (m : mref) (pm : ProcessManager) (spec : ProcessSpec)
    (d : Delegate) (w : World) : PendingLaunch :=
  let mbox := next_mailbox (pm_exchange pm) w in
  {| pl_manager := m;
     pl_pid := new_LocalPid (mb_ownerIdentity mbox) m;
     pl_proc := make_LocalProcess (mb_ownerIdentity mbox) (mb_id (pm_mailbox pm))
                  mbox d;
     pl_timeout := js_or (handshakeTimeout spec) (pm_handshakeTimeout pm) |}.

(** The manager that the constructor makes. *)
Definition constructed (x : Exchange) (mailboxId : option string) (w : World)
  : ProcessManager :=
  let mbox := Exchange_mailbox x (default (UUID_v4 (uuid_calls w)) mailboxId) in
  {| pm_procs := ∅;
     pm_exchange := x;
     pm_mailbox := mbox;
     pm_courier := {| c_mailbox := mbox;
                      c_delegate := ManagerDelegate (length (managers w)) |};
     pm_handshakeTimeout := DefaultProcessHandshakeTimeout |}.

(** The manager with the process of a launch put in its table. *)
Definition registered (p : PendingLaunch) (pm : ProcessManager) : ProcessManager :=
  set_procs pm (<[LocalPid_id (pl_pid p) := pl_proc p]> (pm_procs pm)).

(** The operations that only read. *)
Definition reads (op : Op) : bool :=
  match op with
  | ODoesOwn _ _ | OMailboxId _ | ODispose _ => true
  | _ => false
  end.

(** The message a send operation asks for: manager, address and payload. *)
Definition send_of (op : Op) : option (mref * string * JsValue) :=
  match op with
  | OSendMessage m to data => Some (m, to, data)
  | OPidSend pid data => Some (pid_processManager pid, pid_mailboxId pid, data)
  | _ => None
  end.

(** The world after each operation, case by case. *)
Inductive effect (op : Op) (w w' : World) : Prop :=
  | ef_read :
      reads op = true ->
      w' = w ->
      effect op w w'
  | ef_sent m pm to data :
      send_of op = Some (m, to, data) ->
      managers w !! m = Some pm ->
      w' = set_deliveries w (deliveries w ++ [message_to pm to data]) ->
      effect op w w'
  | ef_new x mailboxId :
      op = ONew x mailboxId ->
      identity_in_use x (default (UUID_v4 (uuid_calls w)) mailboxId) w = false ->
      w' = {| uuid_calls := S (uuid_calls w);
              allocated := allocated w ++
                [(x, Exchange_mailbox x (default (UUID_v4 (uuid_calls w)) mailboxId))];
              deliveries := deliveries w;
              managers := managers w ++ [constructed x mailboxId w];
              launches := launches w |} ->
      effect op w w'
  | ef_rejected m spec e n :
      (* a spec of another type, or a mailbox that the exchange refuses *)
      op = OLaunch m spec ->
      uuid_calls w <= n ->
      w' = {| uuid_calls := n;
              allocated := allocated w;
              deliveries := deliveries w;
              managers := managers w;
              launches := launches w ++ [Settled (Err e)] |} ->
      effect op w w'
  | ef_threw m spec pm e :
      (* a builder that throws, or that returns no delegate *)
      op = OLaunch m spec ->
      pType spec = "local" ->
      managers w !! m = Some pm ->
      identity_in_use (pm_exchange pm) (UUID_v4 (uuid_calls w)) w = false ->
      w' = {| uuid_calls := S (uuid_calls w);
              allocated := allocated w ++
                [(pm_exchange pm, next_mailbox (pm_exchange pm) w)];
              deliveries := deliveries w;
              managers := managers w;
              launches := launches w ++ [Settled (Err e)] |} ->
      effect op w w'
  | ef_pending m spec pm d :
      op = OLaunch m spec ->
      pType spec = "local" ->
      managers w !! m = Some pm ->
      identity_in_use (pm_exchange pm) (UUID_v4 (uuid_calls w)) w = false ->
      delegateBuilder spec createDelegateContext = Ok (Some d) ->
      w' = {| uuid_calls := S (uuid_calls w);
              allocated := allocated w ++
                [(pm_exchange pm, next_mailbox (pm_exchange pm) w)];
              deliveries := deliveries w ++
                [handshake_to pm (mb_ownerIdentity (next_mailbox (pm_exchange pm) w))];
              managers := managers w;
              launches := launches w ++ [Pending (pending_of m pm spec d w)] |} ->
      effect op w w'
  | ef_late l ev r :
      op = OHandshake l ev ->
      launches w !! l = Some (Settled r) ->
      w' = w ->
      effect op w w'
  | ef_resolved l v p pm :
      op = OHandshake l (TransportSettles (Ok v)) ->
      launches w !! l = Some (Pending p) ->
      managers w !! pl_manager p = Some pm ->
      w' = {| uuid_calls := uuid_calls w;
              allocated := allocated w;
              deliveries := deliveries w;
              managers := <[pl_manager p := registered p pm]> (managers w);
              launches := <[l := Settled (Ok (pl_pid p))]> (launches w) |} ->
      effect op w w'
  | ef_failed l ev p e :
      op = OHandshake l ev ->
      launches w !! l = Some (Pending p) ->
      Promise_timeout ev = Err e ->
      w' = set_launches w
             (<[l := Settled (Err (if instanceOf_TimeoutError e
                                   then HandshakeTimeoutError else e))]>
                (launches w)) ->
      effect op w w'
  | ef_refused x mailboxId :
      (* a constructor whose mailbox the exchange refuses *)
      op = ONew x mailboxId ->
      identity_in_use x (default (UUID_v4 (uuid_calls w)) mailboxId) w = true ->
      w' = set_uuid_calls w (S (uuid_calls w)) ->
      effect op w w'.

(** The process [proc] and the PID [pid] are what a launch on manager [m]
    builds: they carry the address of one mailbox allocated on the exchange
    of the manager, the process knows the mailbox of its manager, and the
    handshake request for that address has left. *)
Definition built_by (w : World) (m : mref) (pid : LocalPid) (proc : LocalProcess)
  : Prop :=
  exists pm,
    managers w !! m = Some pm /\
    pid_processManager pid = m /\
    LocalPid_id pid = mb_ownerIdentity (lp_mailbox proc) /\
    lp_id proc = LocalPid_id pid /\
    lp_pmMboxId proc = mb_id (pm_mailbox pm) /\
    lp_courier proc = {| c_mailbox := lp_mailbox proc;
                         c_delegate := ProcessDelegate (lp_delegate proc) |} /\
    (pm_exchange pm, lp_mailbox proc) ∈ allocated w /\
    handshake_to pm (LocalPid_id pid) ∈ deliveries w.

Record provenance (w : World) : Prop := {
  prov_pending : forall l p,
    launches w !! l = Some (Pending p) ->
    built_by w (pl_manager p) (pl_pid p) (pl_proc p);
  prov_table : forall m pm k proc,
    managers w !! m = Some pm ->
    pm_procs pm !! k = Some proc ->
    exists pid, LocalPid_id pid = k /\ built_by w m pid proc
}.

(** The launch promise [s] has resolved with a PID of manager [m]. *)
Definition resolved_by (m : mref) (s : LaunchState) : Prop :=
  match s with
  | Settled (Ok pid) => pid_processManager pid = m
  | _ => False
  end.

#[global] Instance resolved_by_dec m s : Decision (resolved_by m s).
Proof. destruct s as [p|[pid|e]]; simpl; apply _. Defined.

(** The number of launches of manager [m] that have resolved. *)
Definition registrations (m : mref) (w : World) : nat :=
  length (filter (resolved_by m) (launches w)).

End Effects.

(** More runs of the small system. *)
Module DemoRuns.

#[local] Existing Instance Demo.thicket.

(** A spec whose builder throws bluebird's [TimeoutError]. *)
Definition throwing : ProcessSpec :=
  {| pType := "local";
     handshakeTimeout := None;
     delegateBuilder := fun _ => Err TimeoutError |}.

(** The manager that [Demo.ops_manager] constructs. *)
Definition manager0 : ProcessManager := constructed 0 None init.

(** A spec whose builder returns [undefined]. *)
Definition absent : ProcessSpec :=
  {| pType := "local";
     handshakeTimeout := None;
     delegateBuilder := fun _ => Ok None |}.

(** One manager, and a second one whose mailbox identity is the identifier
    that [UUID.v4()] returns next. *)
Definition ops_taken : list Op := [ONew 0 None; ONew 0 (Some "id-uu")].

(** Two managers, the second with a mailbox identity of its own; one
    launch on the first, resolved. *)
Definition ops_managers : list Op :=
  [ONew 0 None; ONew 0 (Some "boss"); OLaunch 0 (Demo.spec None);
   OHandshake 0 Demo.reply].

(** The PID of that launch. *)
Definition pid : LocalPid := new_LocalPid "id-uu" 0.

(** One manager, two launches that wait for their replies. *)
Definition ops_two_pending : list Op :=
  Demo.ops_pending ++ [OLaunch 0 (Demo.spec (Some (JsFinite 50)))].

(** What the second of them has built. *)
Definition pending1 : PendingLaunch :=
  {| pl_manager := 0;
     pl_pid := Demo.pid1;
     pl_proc := make_LocalProcess "id-uu" "mbox-id-"
                  {| mb_ownerIdentity := "id-uu"; mb_id := "mbox-id-uu" |} Demo.Echo;
     pl_timeout := JsFinite 50 |}.

(** What follows the construction of the manager in [Demo.ops_two], with a
    [dispose()] at the end. *)
Definition ops_later : list Op :=
  [OLaunch 0 (Demo.spec None); OHandshake 0 Demo.reply; ODispose 0].

End DemoRuns.

(** * Properties *)

Section Properties.
Context `{Thicket}.

Ltac run_monad :=
  repeat (unfold after, bind, ret, throw, lift, deref, assign_procs,
            UUID_v4_call, Exchange_mailbox_call, Courier_send,
            Courier_sendAndReceive, Promise_start, Promise_then,
            Promise_catch, Promise_timeout in *;
          simpl in *).

Lemma step_transition op w w' : step op w = Some w' -> transition w w'.
Proof.
  destruct op as [x mid|m spec|m to data|m pid|m|m|pid data|l ev]; simpl.
  - unfold new_ProcessManager. run_monad.
    destruct (identity_in_use x _ _); simpl; intros [= <-].
    + apply t_quiet; simpl; auto.
    + eapply t_new; simpl; eauto.
  - unfold ProcessManager_launch, launchLocal_start, ProcessManager_mailboxId,
      new_LocalProcess, Options_getOrError.
    destruct (String.eqb (pType spec) "local").
    + run_monad. destruct (managers w !! m) as [pm|] eqn:Hm; simpl; [|done].
      destruct (identity_in_use (pm_exchange pm) _ _); simpl;
        [intros [= <-]; eapply t_reject; simpl; eauto|].
      destruct (delegateBuilder spec createDelegateContext) as [[d|]|e]; simpl.
      * rewrite Hm. simpl. intros [= <-].
        eapply (t_pending _ _ m pm); simpl; eauto.
      * rewrite Hm. simpl. intros [= <-]. eapply t_reject; simpl; eauto.
      * intros [= <-]. eapply t_reject; simpl; eauto.
    + run_monad. intros [= <-]. eapply t_reject; simpl; eauto.
  - unfold ProcessManager_sendMessage. run_monad.
    destruct (managers w !! m); simpl; [|done]. intros [= <-]. by apply t_quiet.
  - unfold ProcessManager_doesOwn. run_monad.
    destruct (managers w !! m); simpl; [|done]. intros [= <-]. by apply t_quiet.
  - unfold ProcessManager_mailboxId. run_monad.
    destruct (managers w !! m); simpl; [|done]. intros [= <-]. by apply t_quiet.
  - unfold ProcessManager_dispose. run_monad. intros [= <-]. by apply t_quiet.
  - unfold LocalPid_send, ProcessManager_sendMessage. run_monad.
    destruct (managers w !! _); simpl; [|done]. intros [= <-]. by apply t_quiet.
  - unfold settle, launchLocal_settle, register.
    destruct (launches w !! l) as [[p|r]|] eqn:Hl; [| |done].
    + destruct ev as [[v|e]|]; run_monad.
      * destruct (managers w !! pl_manager p) as [pm|] eqn:Hm; simpl; [|done].
        rewrite Hm. simpl. intros [= <-]. by eapply t_resolve.
      * destruct (instanceOf_TimeoutError e); intros [= <-]; by eapply t_fail.
      * intros [= <-]. by eapply t_fail.
    + intros [= <-]. by apply t_quiet.
Qed.

Lemma wf_init : wf init.
Proof. split; simpl; intros *; by rewrite ?lookup_nil. Qed.

Lemma transition_wf w w' : wf w -> transition w w' -> wf w'.
Proof.
  intros [Hman Hown Hori Hto] Ht.
  destruct Ht as [Hm Hl _ _|pm0 Hm Hp0 Ht0 Hl _|e Hm Hl _
                 |m pm p Hpm Hm Hl _ Hpl Hpid
                 |l p pm Hlp Hpm Hm Hl _ _|l p e Hlp Hm Hl _ _].
  - split; rewrite ?Hm, ?Hl; eauto.
  - split; rewrite ?Hm, ?Hl.
    + intros l p Hlp. destruct (Hman l p Hlp) as [? ?]. split; [done|].
      rewrite length_app. simpl. lia.
    + intros l pid Hlp. destruct (Hown l pid Hlp) as (pm & Hpm & Hk).
      exists pm. split; [|done]. apply lookup_app_l_Some. done.
    + intros m pm k [Hpm|[-> ->]]%lookup_snoc_Some Hk.
      * destruct Hpm as [_ Hpm]. eauto.
      * rewrite Hp0, lookup_empty in Hk. by destruct Hk.
    + intros m pm [[_ Hpm]|[-> ->]]%lookup_snoc_Some; eauto.
  - split; rewrite ?Hm, ?Hl; eauto.
    + intros l p [[_ Hlp]|[_ ?]]%lookup_snoc_Some; [eauto|done].
    + intros l pid [[_ Hlp]|[_ ?]]%lookup_snoc_Some; [eauto|done].
    + intros m pm k Hpm Hk. destruct (Hori m pm k Hpm Hk) as (l & pid & Hlp & ?).
      exists l, pid. split; [|done]. by apply lookup_app_l_Some.
  - split; rewrite ?Hm, ?Hl; eauto.
    + intros l q [[_ Hlq]|[_ [= <-]]]%lookup_snoc_Some; [eauto|].
      rewrite Hpid, Hpl. simpl. split; [done|]. by eapply lookup_lt_Some.
    + intros l pid [[_ Hlp]|[_ ?]]%lookup_snoc_Some; [eauto|done].
    + intros m' pm' k Hpm' Hk.
      destruct (Hori m' pm' k Hpm' Hk) as (l & pid & Hlp' & ?).
      exists l, pid. split; [|done]. by apply lookup_app_l_Some.
  - destruct (Hman l p Hlp) as [Hpm_p Hlt].
    split; rewrite ?Hm, ?Hl.
    + intros l' q [(_ & ? & _)|[_ Hlq]]%list_lookup_insert_Some; [done|].
      rewrite length_insert. eauto.
    + intros l' pid [(-> & [= <-] & _)|[Hne Hl']]%list_lookup_insert_Some.
      * rewrite Hpm_p. eexists. split; [by apply list_lookup_insert_eq|].
        simpl. rewrite lookup_insert_eq. eauto.
      * destruct (Hown l' pid Hl') as (pm' & Hpm' & Hk).
        destruct (decide (pid_processManager pid = pl_manager p)) as [Heq|Hneq].
        -- rewrite Heq in *. eexists. split; [by apply list_lookup_insert_eq|].
           simpl. apply lookup_insert_is_Some'. right. congruence.
        -- exists pm'. split; [|done]. by rewrite list_lookup_insert_ne.
    + intros m pm' k [(<- & <- & _)|[Hne Hpm']]%list_lookup_insert_Some Hk.
      * simpl in Hk. apply lookup_insert_is_Some' in Hk as [<-|Hk].
        -- exists l, (pl_pid p). split; [|done].
           apply list_lookup_insert_eq. by eapply lookup_lt_Some.
        -- destruct (Hori _ pm k Hpm Hk) as (l' & pid & Hl' & ? & ?).
           exists l', pid. split; [|done].
           rewrite list_lookup_insert_ne; [done|]. congruence.
      * destruct (Hori m pm' k Hpm' Hk) as (l' & pid & Hl' & ? & ?).
        exists l', pid. split; [|done].
        rewrite list_lookup_insert_ne; [done|]. congruence.
    + intros m pm' [(<- & <- & _)|[Hne Hpm']]%list_lookup_insert_Some; simpl; eauto.
  - split; rewrite ?Hm, ?Hl; eauto.
    + intros l' q [(_ & ? & _)|[_ Hlq]]%list_lookup_insert_Some; [done|eauto].
    + intros l' pid [(_ & ? & _)|[_ Hl']]%list_lookup_insert_Some; [done|eauto].
    + intros m pm k Hpm Hk. destruct (Hori m pm k Hpm Hk) as (l' & pid & Hl' & ?).
      exists l', pid. split; [|done].
      rewrite list_lookup_insert_ne; [done|]. congruence.
Qed.

Lemma reachable_wf w : reachable w -> wf w.
Proof.
  induction 1 as [|op w w' _ IH Hstep]; [apply wf_init|].
  eauto using transition_wf, step_transition.
Qed.

Lemma fresh_within w w' :
  fresh w -> pids_within w w' -> uuid_calls w <= uuid_calls w' -> fresh w'.
Proof.
  intros [Hiss Hdis] Hin Hle. split.
  - intros l s pid Hl Hp. destruct (Hin l s pid Hl Hp) as (s0 & Hl0 & Hp0).
    destruct (Hiss l s0 pid Hl0 Hp0) as (k & ? & ?). exists k. split; [lia|done].
  - intros l1 l2 s1 s2 pid1 pid2 Hl1 Hl2 Hp1 Hp2 Heq.
    destruct (Hin _ _ _ Hl1 Hp1) as (t1 & ? & ?).
    destruct (Hin _ _ _ Hl2 Hp2) as (t2 & ? & ?). eauto.
Qed.

Lemma pids_within_settle w w' l p r :
  launches w !! l = Some (Pending p) ->
  launches w' = <[l := Settled r]> (launches w) ->
  (forall pid, r = Ok pid -> pid = pl_pid p) ->
  pids_within w w'.
Proof.
  intros Hl Hl' Hr l' s pid. rewrite Hl'.
  intros [(<- & <- & _)|[_ Hs]]%list_lookup_insert_Some Hp; [|eauto].
  exists (Pending p). split; [done|]. destruct r as [pid'|e]; [|done].
  simpl in *. rewrite <- (Hr pid' eq_refl). done.
Qed.

Lemma transition_fresh w w' :
  fresh_addresses -> fresh w -> transition w w' -> fresh w'.
Proof.
  intros [Hinj Hown] Hf Ht.
  destruct Ht as [Hm Hl Hu _|pm0 Hm Hp0 Ht0 Hl Hu|e Hm Hl Hu
                 |m pm p Hpm Hm Hl Hu Hpl Hpid
                 |l p pm Hlp Hpm Hm Hl Hu _|l p e Hlp Hm Hl Hu _].
  - apply (fresh_within w); [done| |lia]. intros l s pid. rewrite Hl. eauto.
  - apply (fresh_within w); [done| |lia]. intros l s pid. rewrite Hl. eauto.
  - apply (fresh_within w); [done| |lia]. intros l s pid. rewrite Hl.
    intros [[_ Hs]|[_ <-]]%lookup_snoc_Some Hp; [eauto|done].
  - destruct Hf as [Hiss Hdis].
    assert (Hnew : LocalPid_id (pl_pid p) = UUID_v4 (uuid_calls w)).
    { rewrite Hpid. simpl. apply Hown. }
    split; rewrite ?Hl, ?Hu.
    + intros l s pid [[_ Hs]|[_ <-]]%lookup_snoc_Some Hp.
      * destruct (Hiss l s pid Hs Hp) as (k & ? & ?). exists k. split; [lia|done].
      * injection Hp as <-. exists (uuid_calls w). split; [lia|done].
    + intros l1 l2 s1 s2 pid1 pid2
        [[_ Hs1]|[-> <-]]%lookup_snoc_Some [[_ Hs2]|[-> <-]]%lookup_snoc_Some
        Hp1 Hp2 Heq; [eauto| | |done].
      * injection Hp2 as <-. destruct (Hiss _ _ _ Hs1 Hp1) as (k & Hk & Hid).
        rewrite Heq, Hnew in Hid. apply Hinj in Hid. lia.
      * injection Hp1 as <-. destruct (Hiss _ _ _ Hs2 Hp2) as (k & Hk & Hid).
        rewrite <- Heq, Hnew in Hid. apply Hinj in Hid. lia.
  - apply (fresh_within w); [done| |lia].
    eapply pids_within_settle; [done..|]. by intros ? [= <-].
  - apply (fresh_within w); [done| |lia].
    eapply pids_within_settle; [done..|]. by intros ? [=].
Qed.

Lemma fresh_init : fresh init.
Proof. split; simpl; intros *; by rewrite ?lookup_nil. Qed.

Lemma reachable_fresh w : fresh_addresses -> reachable w -> fresh w.
Proof.
  intros Hc. induction 1 as [|op w w' _ IH Hstep]; [apply fresh_init|].
  eauto using transition_fresh, step_transition.
Qed.

(** ** What no step undoes *)

Lemma run_reachable ops : forall w w',
  reachable w -> run ops w = Some w' -> reachable w'.
Proof.
  induction ops as [|op ops IH]; simpl; intros w w' Hw.
  - by intros [= <-].
  - destruct (step op w) as [w1|] eqn:Hs; [|done].
    apply IH. by eapply reachable_step.
Qed.

(** A key of a process table stays a key, whatever the step. *)
Lemma transition_keeps_keys w w' m pm k :
  transition w w' ->
  managers w !! m = Some pm -> is_Some (pm_procs pm !! k) ->
  exists pm', managers w' !! m = Some pm' /\ is_Some (pm_procs pm' !! k).
Proof.
  intros Ht Hpm Hk.
  destruct Ht as [Hm _ _ _|pm0 Hm _ _ _ _|e Hm _ _|m0 pm1 p _ Hm _ _ _ _
                 |l p pm1 _ Hpm1 Hm _ _ _|l p e _ Hm _ _ _];
    rewrite Hm; eauto.
  - exists pm. split; [|done]. by apply lookup_app_l_Some.
  - destruct (decide (pl_manager p = m)) as [Heq|Hne].
    + rewrite Heq in *. eexists. split.
      * apply list_lookup_insert_eq. by eapply lookup_lt_Some.
      * simpl. apply lookup_insert_is_Some'. right.
        assert (Some pm1 = Some pm) as [= ->]; [|done].
        etransitivity; [symmetry; exact Hpm1|exact Hpm].
    + exists pm. split; [|done]. by rewrite list_lookup_insert_ne.
Qed.

(** A settled promise stays as it is. *)
Lemma transition_settled w w' l r :
  transition w w' ->
  launches w !! l = Some (Settled r) -> launches w' !! l = Some (Settled r).
Proof.
  intros Ht Hl.
  destruct Ht as [_ Hl' _ _|pm0 _ _ _ Hl' _|e _ Hl' _|m0 pm1 p _ _ Hl' _ _ _
                 |l0 p pm1 Hl0 _ _ Hl' _ _|l0 p e Hl0 _ Hl' _ _];
    rewrite Hl'; try done; try (by apply lookup_app_l_Some).
  - rewrite list_lookup_insert_ne; [done|]. congruence.
  - rewrite list_lookup_insert_ne; [done|]. congruence.
Qed.

Lemma run_settled ops : forall w w' l r,
  run ops w = Some w' ->
  launches w !! l = Some (Settled r) -> launches w' !! l = Some (Settled r).
Proof.
  induction ops as [|op ops IH]; simpl; intros w w' l r.
  - by intros [= <-].
  - destruct (step op w) as [w1|] eqn:Hs; [|done]. intros Hr Hl.
    eapply IH; [done|]. eauto using transition_settled, step_transition.
Qed.

Lemma fresh_reserved w l s pid :
  fresh w -> launches w !! l = Some s -> launch_pid s = Some pid ->
  reserved (LocalPid_id pid) l w.
Proof.
  intros [Hiss Hdis] Hl Hp. split; [eauto|].
  intros l' s' pid' Hl' Hp' Heq. eauto.
Qed.

Lemma transition_reserved a l w w' :
  fresh_addresses -> reserved a l w -> transition w w' -> reserved a l w'.
Proof.
  intros [Hinj Hown] [(k & Hk & Ha) Hres] Ht.
  assert (Hwithin : pids_within w w' -> uuid_calls w <= uuid_calls w' ->
                    reserved a l w').
  { intros Hin Hle. split; [exists k; split; [lia|done]|].
    intros l' s pid Hl' Hp Hid.
    destruct (Hin _ _ _ Hl' Hp) as (s0 & ? & ?). eauto. }
  destruct Ht as [Hm Hl Hu _|pm0 Hm Hp0 Ht0 Hl Hu|e Hm Hl Hu
                 |m pm p Hpm Hm Hl Hu Hpl Hpid
                 |l0 p pm Hlp Hpm Hm Hl Hu _|l0 p e Hlp Hm Hl Hu _].
  - apply Hwithin; [|lia]. intros l' s pid. rewrite Hl. eauto.
  - apply Hwithin; [|lia]. intros l' s pid. rewrite Hl. eauto.
  - apply Hwithin; [|lia]. intros l' s pid. rewrite Hl.
    intros [[_ Hs]|[_ <-]]%lookup_snoc_Some Hp; [eauto|done].
  - split; [exists k; split; [lia|done]|]. rewrite Hl.
    intros l' s pid [[_ Hs]|[-> <-]]%lookup_snoc_Some Hp Hid; [eauto|].
    injection Hp as <-. rewrite Hpid in Hid. simpl in Hid.
    rewrite Hown, Ha in Hid. apply Hinj in Hid. lia.
  - apply Hwithin; [|lia].
    eapply pids_within_settle; [done..|]. by intros ? [= <-].
  - apply Hwithin; [|lia].
    eapply pids_within_settle; [done..|]. by intros ? [=].
Qed.

Lemma run_reserved a l ops : forall w w',
  fresh_addresses -> reserved a l w -> run ops w = Some w' -> reserved a l w'.
Proof.
  induction ops as [|op ops IH]; simpl; intros w w' Hc Hr.
  - by intros [= <-].
  - destruct (step op w) as [w1|] eqn:Hs; [|done].
    apply IH; [done|]. eauto using transition_reserved, step_transition.
Qed.

(** A table holds no address that is reserved for a promise which stands
    for no PID. *)
Lemma reserved_not_owned a l w m pm :
  wf w -> reserved a l w ->
  (forall s, launches w !! l = Some s -> launch_pid s = None) ->
  managers w !! m = Some pm -> pm_procs pm !! a = None.
Proof.
  intros Hwf [_ Hres] Hl Hpm.
  destruct (pm_procs pm !! a) as [proc|] eqn:Hk; [|done].
  destruct (wf_origin w Hwf m pm a Hpm) as (l' & pid & Hl' & Hid & _); [eauto|].
  assert (l' = l) as -> by (eapply Hres; [done| |done]; done).
  by specialize (Hl _ Hl').
Qed.

(** A manager, once constructed, stays in the world. *)
Lemma transition_managers_length w w' :
  transition w w' -> length (managers w) <= length (managers w').
Proof.
  intros [Hm _ _ _|pm0 Hm _ _ _ _|e Hm _ _|m0 pm1 p _ Hm _ _ _ _
         |l p pm1 _ _ Hm _ _ _|l p e _ Hm _ _ _];
    rewrite Hm, ?length_app, ?length_insert; simpl; lia.
Qed.

Lemma run_managers_length ops : forall w w',
  run ops w = Some w' -> length (managers w) <= length (managers w').
Proof.
  induction ops as [|op ops IH]; simpl; intros w w'.
  - by intros [= <-].
  - destruct (step op w) as [w1|] eqn:Hs; [|done]. intros Hr.
    apply step_transition, transition_managers_length in Hs.
    apply IH in Hr. lia.
Qed.

(** ** The methods, run *)

(** Drawing an identifier takes no identity into use. *)
Lemma in_use_after_draw x identity w n :
  identity_in_use x identity (set_uuid_calls w n) = identity_in_use x identity w.
Proof. reflexivity. Qed.

Lemma sendMessage_run w m pm to data :
  managers w !! m = Some pm ->
  ProcessManager_sendMessage m to data w =
    Some (Ok tt, set_deliveries w (deliveries w ++ [message_to pm to data])).
Proof.
  intros Hm. unfold ProcessManager_sendMessage. run_monad. rewrite Hm. simpl.
  unfold message_to. by destruct data.
Qed.

Lemma doesOwn_run w m pm pid :
  managers w !! m = Some pm ->
  ProcessManager_doesOwn m pid w =
    Some (Ok (bool_decide (is_Some (pm_procs pm !! LocalPid_id pid))), w).
Proof.
  intros Hm. unfold ProcessManager_doesOwn. run_monad. by rewrite Hm.
Qed.

Lemma settle_pending w l p ev :
  launches w !! l = Some (Pending p) ->
  settle l ev w =
    match launchLocal_settle p ev w with
    | Some (r, w') => Some (set_launches w' (<[l := Settled r]> (launches w')))
    | None => None
    end.
Proof. intros Hl. unfold settle. by rewrite Hl. Qed.

Lemma settle_settled w l r ev :
  launches w !! l = Some (Settled r) -> settle l ev w = Some w.
Proof. intros Hl. unfold settle. by rewrite Hl. Qed.

Lemma settle_failure w p e :
  launchLocal_settle p (TransportSettles (Err e)) w =
    Some (Err (if instanceOf_TimeoutError e then HandshakeTimeoutError else e), w).
Proof. unfold launchLocal_settle. run_monad. by destruct (instanceOf_TimeoutError e). Qed.

Lemma settle_timer w p :
  launchLocal_settle p TimerFires w = Some (Err HandshakeTimeoutError, w).
Proof. reflexivity. Qed.

Lemma settle_reply w p v pm :
  managers w !! pl_manager p = Some pm ->
  launchLocal_settle p (TransportSettles (Ok v)) w =
    Some (Ok (pl_pid p),
          set_managers w (<[pl_manager p :=
            set_procs pm (<[LocalPid_id (pl_pid p) := pl_proc p]> (pm_procs pm))]>
            (managers w))).
Proof.
  intros Hm. unfold launchLocal_settle, register. run_monad.
  rewrite Hm. simpl. by rewrite Hm.
Qed.

(** ** The claims *)

(** C3: a spec whose [pType] is not ["local"] makes [launch] fail with
    [InvalidProcessSpecType]; no mailbox is allocated, no identifier is
    drawn, nothing is sent and no process table changes. *)
Theorem launch_rejects_other_types (this : mref) (spec : ProcessSpec) (w : World) :
  pType spec <> "local" ->
  exists w',
    ProcessManager_launch this spec w = Some (Ok (length (launches w)), w') /\
    launches w' !! length (launches w) = Some (Settled (Err InvalidProcessSpecType)) /\
    allocated w' = allocated w /\
    managers w' = managers w /\
    uuid_calls w' = uuid_calls w /\
    deliveries w' = deliveries w.
Proof.
  intros Hne. apply String.eqb_neq in Hne.
  unfold ProcessManager_launch. rewrite Hne. run_monad.
  eexists. split; [reflexivity|]. simpl.
  split; [|done]. apply lookup_snoc_Some. by right.
Qed.

(** C6: [sendMessage(targetId, data)] hands the courier of the manager one
    [Message] envelope for [targetId], with [data] or [null] when [data] is
    absent, whatever the process table holds; and [pid.send(data)] is
    [sendMessage(pid.id(), data)] on the manager of the PID. *)
Theorem sendMessage_best_effort (w : World) (m : mref) (pm : ProcessManager)
    (targetId : string) (data : JsValue) :
  managers w !! m = Some pm ->
  ProcessManager_sendMessage m targetId data w =
    Some (Ok tt, set_deliveries w (deliveries w ++ [message_to pm targetId data])) /\
  d_to (message_to pm targetId data) = targetId /\
  mType (d_body (message_to pm targetId data)) = "message" /\
  d_body (message_to pm targetId JUndefined) = Message JNull /\
  (data <> JUndefined -> d_body (message_to pm targetId data) = Message data) /\
  (forall pid : LocalPid,
     LocalPid_send pid data w =
     ProcessManager_sendMessage (pid_processManager pid) (LocalPid_id pid) data w).
Proof.
  intros Hm. split; [by apply sendMessage_run|].
  repeat split; try done. intros Hd. simpl. by destruct data.
Qed.

(** C10: [dispose()] completes normally and leaves the world as it is,
    however often it is called: [doesOwn] and [mailboxId] answer as before;
    and no step of the program removes a key from a process table. *)
Theorem dispose_is_inert (this : mref) (w : World) (n : nat) :
  ProcessManager_dispose this w = Some (Ok tt, w) /\
  run (replicate n (ODispose this)) w = Some w /\
  (forall w1 pid,
     step (ODispose this) w = Some w1 ->
     ProcessManager_doesOwn this pid w1 = ProcessManager_doesOwn this pid w /\
     ProcessManager_mailboxId this w1 = ProcessManager_mailboxId this w /\
     managers w1 = managers w) /\
  (forall op w' m pm k,
     step op w = Some w' ->
     managers w !! m = Some pm -> is_Some (pm_procs pm !! k) ->
     exists pm', managers w' !! m = Some pm' /\ is_Some (pm_procs pm' !! k)).
Proof.
  split; [done|]. split; [by induction n|]. split.
  - by intros w1 pid [= <-].
  - intros op w' m pm k Hs. apply transition_keeps_keys. by eapply step_transition.
Qed.

(** C4, as the code has it: [dispose()] sets no mark on the manager, so
    [pid.send(data)] after it does what it did before: it completes
    normally and hands the courier of the manager one [Message] envelope
    for the address of the PID. *)
Theorem send_after_dispose (pid : LocalPid) (data : JsValue) (w w1 : World)
    (pm : ProcessManager) :
  step (ODispose (pid_processManager pid)) w = Some w1 ->
  managers w !! pid_processManager pid = Some pm ->
  LocalPid_send pid data w1 = LocalPid_send pid data w /\
  LocalPid_send pid data w1 =
    Some (Ok tt, set_deliveries w
      (deliveries w ++ [message_to pm (LocalPid_id pid) data])).
Proof.
  intros [= <-] Hm. split; [done|]. by apply sendMessage_run.
Qed.

(** C8, as the code has it: a failure of the handshake exchange that is
    not an instance of [Promise.TimeoutError] rejects [launch] with that
    very error; nothing is sent again and no process table changes. *)
Theorem transport_failure_propagates (w : World) (l : lref) (p : PendingLaunch)
    (e : Error) :
  launches w !! l = Some (Pending p) ->
  instanceOf_TimeoutError e = false ->
  exists w',
    step (OHandshake l (TransportSettles (Err e))) w = Some w' /\
    launches w' !! l = Some (Settled (Err e)) /\
    managers w' = managers w /\
    deliveries w' = deliveries w /\
    allocated w' = allocated w.
Proof.
  intros Hl He. simpl. rewrite (settle_pending _ _ _ _ Hl), settle_failure, He.
  eexists. split; [reflexivity|]. simpl. split; [|done].
  apply list_lookup_insert_eq. by eapply lookup_lt_Some.
Qed.

(** C5, as the code has it: the bound of the handshake wait is
    [spec.handshakeTimeout] when the field is present and truthy (neither
    [0] nor [NaN]), and the default of 1000 otherwise.  (The wait starts
    unless the exchange refuses the mailbox of the process, which rejects
    the launch.) *)
Theorem handshake_timeout_resolution (w : World) (m : mref) (spec : ProcessSpec)
    (d : Delegate) :
  reachable w ->
  m < length (managers w) ->
  pType spec = "local" ->
  delegateBuilder spec createDelegateContext = Ok (Some d) ->
  exists pm w',
    managers w !! m = Some pm /\
    ProcessManager_launch m spec w = Some (Ok (length (launches w)), w') /\
    if identity_in_use (pm_exchange pm) (UUID_v4 (uuid_calls w)) w
    then launches w' !! length (launches w) = Some (Settled (Err Exchange_refusal))
    else exists p,
      launches w' !! length (launches w) = Some (Pending p) /\
      pl_timeout p = match handshakeTimeout spec with
                     | Some n => if truthy n then n else JsFinite 1000
                     | None => JsFinite 1000
                     end.
Proof.
  intros Hw Hm Hty Hd. apply lookup_lt_is_Some in Hm as [pm Hpm].
  pose proof (wf_timeout w (reachable_wf w Hw) m pm Hpm) as Hto.
  exists pm.
  unfold ProcessManager_launch, launchLocal_start, ProcessManager_mailboxId,
    new_LocalProcess, Options_getOrError.
  rewrite Hty. run_monad. rewrite Hpm. simpl. rewrite in_use_after_draw.
  destruct (identity_in_use (pm_exchange pm) (UUID_v4 (uuid_calls w)) w); simpl.
  - eexists. split; [done|]. split; [reflexivity|]. simpl.
    apply lookup_snoc_Some. by right.
  - rewrite Hd. simpl. rewrite Hpm. simpl.
    eexists. split; [done|]. split; [reflexivity|]. simpl.
    eexists. split; [apply lookup_snoc_Some; by right|]. simpl. by rewrite Hto.
Qed.

(** C9, on the code: the PID that a launch of a local spec builds carries
    the owner identity of the mailbox of the process, which is also the id
    of the process, while [mailboxId()] of the process returns the [id()]
    of that mailbox; [pid.id()] and [process.mailboxId()] are equal exactly
    when the two accessors of the mailbox return the same string. *)
Theorem pid_and_process_addresses (this : mref) (spec : ProcessSpec)
    (w w' : World) (p : PendingLaunch) :
  launchLocal_start this spec w = Some (Ok p, w') ->
  exists pm,
    managers w !! this = Some pm /\
    lp_mailbox (pl_proc p) =
      Exchange_mailbox (pm_exchange pm) (UUID_v4 (uuid_calls w)) /\
    LocalPid_id (pl_pid p) = mb_ownerIdentity (lp_mailbox (pl_proc p)) /\
    lp_id (pl_proc p) = LocalPid_id (pl_pid p) /\
    LocalProcess_mailboxId (pl_proc p) = mb_id (lp_mailbox (pl_proc p)) /\
    (LocalPid_id (pl_pid p) = LocalProcess_mailboxId (pl_proc p) <->
     mb_id (lp_mailbox (pl_proc p)) = mb_ownerIdentity (lp_mailbox (pl_proc p))).
Proof.
  unfold launchLocal_start, ProcessManager_mailboxId, new_LocalProcess,
    Options_getOrError. run_monad.
  destruct (managers w !! this) as [pm|] eqn:Hm; simpl; [|done].
  destruct (identity_in_use (pm_exchange pm) _ _); simpl; [done|].
  destruct (delegateBuilder spec createDelegateContext) as [[d|]|e]; simpl;
    rewrite ?Hm; simpl; [|done..].
  intros [= <- _]. exists pm. simpl.
  unfold LocalProcess_mailboxId, LocalPid_id. simpl.
  do 5 (split; [done|]). split; intros Heq; by symmetry.
Qed.

(** A list of pairs with distinct keys holds one pair under a key it has. *)
Lemma one_pair_per_key {V} (k : string) (v : V) (kvs : list (string * V)) :
  NoDup (kvs.*1) -> (k, v) ∈ kvs ->
  length (filter (fun kv => kv.1 = k) kvs) = 1.
Proof.
  induction kvs as [|[k' v'] kvs IH]; intros Hnd Hin; [by inv Hin|].
  rewrite fmap_cons in Hnd. apply NoDup_cons in Hnd as [Hnotin Hnd].
  simpl in Hnotin. destruct (decide (k' = k)) as [->|Hne].
  - rewrite filter_cons_True by done. simpl. f_equal.
    destruct (filter (fun kv => kv.1 = k) kvs) as [|[k2 v2] rest] eqn:Hf; [done|].
    assert (Hin2 : (k2, v2) ∈ filter (fun kv : string * V => kv.1 = k) kvs)
      by (rewrite Hf; left).
    apply list_elem_of_filter in Hin2 as [Hk2 Hin2]. simpl in Hk2. subst k2.
    exfalso. apply Hnotin. apply list_elem_of_fmap. by exists (k, v2).
  - rewrite filter_cons_False by (simpl; congruence).
    apply IH; [done|]. apply elem_of_cons in Hin as [[= ? ?]|Hin]; [congruence|done].
Qed.

Lemma entries_for_key (k : string) (pm : ProcessManager) :
  is_Some (pm_procs pm !! k) -> entries_for k pm = 1.
Proof.
  intros [v Hv]. unfold entries_for. apply (one_pair_per_key k v).
  - apply NoDup_fst_map_to_list.
  - by apply elem_of_map_to_list.
Qed.

(** C1: in every world the program can reach, a launch that has resolved
    with a PID has that PID in the table of its manager, under one entry;
    and when the handshake of a pending launch settles, the launch
    resolves with its PID exactly when the entry is put in the table: on a
    reply [doesOwn] is true at once, on any failure the tables are as they
    were, and [doesOwn] is false given that the addresses thicket issues
    are fresh. *)
Theorem launch_registration (w : World) :
  reachable w ->
  (forall l pid,
     launches w !! l = Some (Settled (Ok pid)) ->
     ProcessManager_doesOwn (pid_processManager pid) pid w = Some (Ok true, w) /\
     exists pm, managers w !! pid_processManager pid = Some pm /\
                entries_for (LocalPid_id pid) pm = 1) /\
  (forall l p ev,
     launches w !! l = Some (Pending p) ->
     exists w' r,
       step (OHandshake l ev) w = Some w' /\
       launches w' !! l = Some (Settled r) /\
       match r with
       | Ok pid =>
           pid = pl_pid p /\
           ProcessManager_doesOwn (pl_manager p) pid w' = Some (Ok true, w') /\
           exists pm pm',
             managers w !! pl_manager p = Some pm /\
             managers w' !! pl_manager p = Some pm' /\
             pm_procs pm' = <[LocalPid_id pid := pl_proc p]> (pm_procs pm) /\
             entries_for (LocalPid_id pid) pm' = 1
       | Err e =>
           managers w' = managers w /\
           (fresh_addresses ->
            ProcessManager_doesOwn (pl_manager p) (pl_pid p) w' = Some (Ok false, w'))
       end).
Proof.
  intros Hw. pose proof (reachable_wf w Hw) as Hwf. split.
  - intros l pid Hl. destruct (wf_owned w Hwf l pid Hl) as (pm & Hpm & Hk).
    rewrite (doesOwn_run _ _ _ _ Hpm), bool_decide_eq_true_2 by done.
    split; [done|]. exists pm. split; [done|]. by apply entries_for_key.
  - intros l p ev Hl. destruct (wf_manager w Hwf l p Hl) as [_ Hlt].
    apply lookup_lt_is_Some in Hlt as [pm Hpm].
    assert (Hll : l < length (launches w)) by (by eapply lookup_lt_Some).
    assert (Hnone : fresh_addresses ->
                    pm_procs pm !! LocalPid_id (pl_pid p) = None).
    { intros Hc. pose proof (reachable_fresh w Hc Hw) as Hfr.
      destruct (pm_procs pm !! LocalPid_id (pl_pid p)) as [proc|] eqn:Hk; [|done].
      destruct (wf_origin w Hwf _ pm _ Hpm (mk_is_Some _ _ Hk))
        as (l' & pid' & Hl' & Hid & _).
      assert (l' = l) as ->.
      { eapply (fresh_distinct w Hfr l' l); [exact Hl'|exact Hl|done..]. }
      rewrite Hl in Hl'. done. }
    assert (Hfail : forall e w',
      launchLocal_settle p ev w = Some (Err e, w) ->
      w' = set_launches w (<[l := Settled (Err e)]> (launches w)) ->
      step (OHandshake l ev) w = Some w' /\
      launches w' !! l = Some (Settled (Err e)) /\
      managers w' = managers w /\
      (fresh_addresses ->
       ProcessManager_doesOwn (pl_manager p) (pl_pid p) w' = Some (Ok false, w'))).
    { intros e w' Hs ->. simpl. rewrite (settle_pending _ _ _ _ Hl), Hs.
      split; [done|]. simpl. split; [by apply list_lookup_insert_eq|].
      split; [done|]. intros Hc. rewrite (doesOwn_run _ _ pm) by done.
      by rewrite bool_decide_eq_false_2 by (rewrite (Hnone Hc); by intros [? ?]). }
    destruct ev as [[v|e]|].
    + eexists _, (Ok (pl_pid p)). simpl.
      rewrite (settle_pending _ _ _ _ Hl), (settle_reply _ _ _ _ Hpm). simpl.
      split; [reflexivity|]. split; [by apply list_lookup_insert_eq|].
      split; [done|].
      assert (Hpm' : <[pl_manager p :=
                set_procs pm (<[LocalPid_id (pl_pid p) := pl_proc p]> (pm_procs pm))]>
                (managers w) !! pl_manager p =
              Some (set_procs pm (<[LocalPid_id (pl_pid p) := pl_proc p]> (pm_procs pm)))).
      { apply list_lookup_insert_eq. by eapply lookup_lt_Some. }
      split.
      * erewrite doesOwn_run by (simpl; exact Hpm'). simpl.
        by rewrite lookup_insert_eq, bool_decide_eq_true_2 by eauto.
      * eexists _, _. split; [exact Hpm|]. split; [exact Hpm'|]. split; [done|].
        apply entries_for_key. simpl. rewrite lookup_insert_eq. eauto.
    + eexists _, (Err _). by apply Hfail; [apply settle_failure|].
    + eexists _, (Err _). by apply Hfail; [apply settle_timer|].
Qed.

(** C2: when the timer fires on a pending launch, the launch fails with
    [HandshakeTimeoutError] and the process tables are as they were; from
    then on, whatever the program does, the launch stays failed, a reply of
    the handshake changes nothing at all, and [doesOwn] is false for the
    PID of the launch, given that the addresses thicket issues are fresh. *)
Theorem handshake_timeout (w : World) (l : lref) (p : PendingLaunch) :
  reachable w ->
  launches w !! l = Some (Pending p) ->
  exists w1,
    step (OHandshake l TimerFires) w = Some w1 /\
    launches w1 !! l = Some (Settled (Err HandshakeTimeoutError)) /\
    managers w1 = managers w /\
    forall ops w2,
      run ops w1 = Some w2 ->
      launches w2 !! l = Some (Settled (Err HandshakeTimeoutError)) /\
      (forall r, step (OHandshake l (TransportSettles r)) w2 = Some w2) /\
      (fresh_addresses ->
       ProcessManager_doesOwn (pl_manager p) (pl_pid p) w2 = Some (Ok false, w2)).
Proof.
  intros Hw Hl.
  assert (Hstep : step (OHandshake l TimerFires) w =
    Some (set_launches w (<[l := Settled (Err HandshakeTimeoutError)]> (launches w)))).
  { simpl. by rewrite (settle_pending _ _ _ _ Hl), settle_timer. }
  eexists. split; [exact Hstep|].
  assert (Hl1 : <[l := Settled (Err HandshakeTimeoutError)]> (launches w) !! l =
                Some (Settled (Err HandshakeTimeoutError))).
  { apply list_lookup_insert_eq. by eapply lookup_lt_Some. }
  split; [exact Hl1|]. split; [done|].
  intros ops w2 Hrun.
  pose proof (run_settled _ _ _ _ _ Hrun Hl1) as Hl2.
  split; [exact Hl2|]. split; [intros r; simpl; by eapply settle_settled|].
  intros Hc.
  assert (Hw2 : reachable w2).
  { eapply run_reachable; [|exact Hrun]. by eapply reachable_step. }
  assert (Hres : reserved (LocalPid_id (pl_pid p)) l w2).
  { eapply run_reserved; [done| |exact Hrun].
    eapply transition_reserved; [done| |by eapply step_transition].
    eapply fresh_reserved; [by apply reachable_fresh|exact Hl|done]. }
  destruct (wf_manager w (reachable_wf w Hw) l p Hl) as [_ Hlt].
  assert (Hlt2 : pl_manager p < length (managers w2)).
  { apply run_managers_length in Hrun. simpl in Hrun. lia. }
  apply lookup_lt_is_Some in Hlt2 as [pm2 Hpm2].
  rewrite (doesOwn_run _ _ _ _ Hpm2). rewrite bool_decide_eq_false_2; [done|].
  assert (Hnone : pm_procs pm2 !! LocalPid_id (pl_pid p) = None).
  { eapply (reserved_not_owned _ l w2); [by apply reachable_wf|exact Hres| |exact Hpm2].
    intros s Hs. rewrite Hl2 in Hs. by injection Hs as <-. }
  rewrite Hnone. by intros [? ?].
Qed.

(** C7: [id()] returns the address the PID was constructed with, and the
    PID that a resolved launch handed out stays the same whatever the
    program does; two launches that have resolved hold PIDs with
    different ids, given that [UUID.v4()] does not repeat itself and a
    mailbox reports the identity it was made for. *)
Theorem pid_identity (w : World) (l1 l2 : lref) (pid1 pid2 : LocalPid) :
  fresh_addresses ->
  reachable w ->
  launches w !! l1 = Some (Settled (Ok pid1)) ->
  launches w !! l2 = Some (Settled (Ok pid2)) ->
  l1 <> l2 ->
  LocalPid_id pid1 <> LocalPid_id pid2 /\
  LocalPid_id pid1 = pid_mailboxId pid1 /\
  forall ops w',
    run ops w = Some w' -> launches w' !! l1 = Some (Settled (Ok pid1)).
Proof.
  intros Hc Hw Hl1 Hl2 Hne. split; [|split; [done|]].
  - intros Heq. apply Hne.
    eapply (fresh_distinct w (reachable_fresh w Hc Hw) l1 l2); [exact Hl1|exact Hl2|done..].
  - intros ops w' Hrun. by eapply run_settled.
Qed.

End Properties.

(** ** The claims on the small system *)

Section OnDemo.
#[local] Existing Instance Demo.thicket.

Lemma tally_length n : String.length (Demo.tally n) = n.
Proof. induction n as [|n IH]; simpl; [done|by f_equal]. Qed.

Lemma demo_fresh_addresses : fresh_addresses.
Proof.
  split; [|done]. simpl. intros i j Heq. injection Heq as Heq.
  change (Demo.tally i = Demo.tally j) in Heq.
  apply (f_equal String.length) in Heq. by rewrite !tally_length in Heq.
Qed.

Lemma demo_reachable ops w : run ops init = Some w -> reachable w.
Proof. apply run_reachable, reachable_init. Qed.

Lemma demo_manager : reachable (Demo.world Demo.ops_manager).
Proof. apply (demo_reachable Demo.ops_manager). vm_compute. reflexivity. Qed.

Lemma demo_pending : reachable (Demo.world Demo.ops_pending).
Proof. apply (demo_reachable Demo.ops_pending). vm_compute. reflexivity. Qed.

Lemma demo_two : reachable (Demo.world Demo.ops_two).
Proof. apply (demo_reachable Demo.ops_two). vm_compute. reflexivity. Qed.

Lemma launch_registration_witness :
  reachable (Demo.world Demo.ops_two) /\
  ProcessManager_doesOwn 0 Demo.pid0 (Demo.world Demo.ops_two) =
    Some (Ok true, Demo.world Demo.ops_two).
Proof.
  split; [apply demo_two|].
  apply (proj1 (proj1 (launch_registration (Demo.world Demo.ops_two) demo_two)
                  0 Demo.pid0 eq_refl)).
Defined.

Lemma handshake_timeout_witness :
  reachable (Demo.world Demo.ops_pending) /\
  launches (Demo.world Demo.ops_pending) !! 0 = Some (Pending Demo.pending0) /\
  exists w1,
    step (OHandshake 0 TimerFires) (Demo.world Demo.ops_pending) = Some w1 /\
    launches w1 !! 0 = Some (Settled (Err HandshakeTimeoutError)) /\
    step (OHandshake 0 Demo.reply) w1 = Some w1 /\
    ProcessManager_doesOwn 0 Demo.pid0 w1 = Some (Ok false, w1).
Proof.
  split; [apply demo_pending|]. split; [reflexivity|].
  destruct (handshake_timeout (Demo.world Demo.ops_pending) 0 Demo.pending0
              demo_pending eq_refl) as (w1 & Hs & Hl & _ & Hlater).
  exists w1. split; [exact Hs|]. split; [exact Hl|].
  destruct (Hlater [] w1 eq_refl) as (_ & Hreply & Hown).
  split; [apply Hreply|apply (Hown demo_fresh_addresses)].
Defined.

Lemma launch_rejects_other_types_witness :
  pType Demo.remote <> "local" /\
  exists w',
    ProcessManager_launch 0 Demo.remote (Demo.world Demo.ops_two) = Some (Ok 2, w') /\
    launches w' !! 2 = Some (Settled (Err InvalidProcessSpecType)) /\
    allocated w' = allocated (Demo.world Demo.ops_two) /\
    managers w' = managers (Demo.world Demo.ops_two) /\
    uuid_calls w' = 3.
Proof.
  assert (Hne : pType Demo.remote <> "local") by (simpl; discriminate).
  split; [exact Hne|].
  destruct (launch_rejects_other_types 0 Demo.remote (Demo.world Demo.ops_two) Hne)
    as (w' & Hl & Hs & Ha & Hm & Hu & _).
  exists w'. split; [exact Hl|]. split; [exact Hs|]. split; [exact Ha|].
  split; [exact Hm|]. rewrite Hu. vm_compute. reflexivity.
Defined.

Lemma sendMessage_best_effort_witness :
  exists pm,
    managers (Demo.world Demo.ops_manager) !! 0 = Some pm /\
    pm_procs pm !! "nobody" = None /\
    exists w',
      ProcessManager_sendMessage 0 "nobody" JUndefined (Demo.world Demo.ops_manager)
        = Some (Ok tt, w') /\
      deliveries w' = [message_to pm "nobody" JUndefined].
Proof.
  destruct (managers (Demo.world Demo.ops_manager) !! 0) as [pm|] eqn:Hm;
    [|vm_compute in Hm; discriminate].
  exists pm. split; [reflexivity|].
  split; [vm_compute in Hm; injection Hm as <-; reflexivity|].
  destruct (sendMessage_best_effort (Demo.world Demo.ops_manager) 0 pm "nobody"
              JUndefined Hm) as [Hs _].
  eexists. split; [exact Hs|]. reflexivity.
Defined.

Lemma dispose_is_inert_witness :
  run (replicate 2 (ODispose 0)) (Demo.world Demo.ops_two) =
    Some (Demo.world Demo.ops_two) /\
  forall op w', step op (Demo.world Demo.ops_two) = Some w' ->
    exists pm', managers w' !! 0 = Some pm' /\ is_Some (pm_procs pm' !! "id-u").
Proof.
  destruct (dispose_is_inert 0 (Demo.world Demo.ops_two) 2) as (_ & Hrun & _ & Hkeys).
  split; [exact Hrun|]. intros op w' Hs.
  destruct (managers (Demo.world Demo.ops_two) !! 0) as [pm|] eqn:Hm;
    [|vm_compute in Hm; discriminate].
  apply (Hkeys op w' 0 pm "id-u" Hs Hm).
  vm_compute in Hm. injection Hm as <-. vm_compute. eauto.
Defined.

Lemma send_after_dispose_witness :
  step (ODispose (pid_processManager Demo.pid0)) (Demo.world Demo.ops_two) =
    Some (Demo.world Demo.ops_two) /\
  exists pm,
    managers (Demo.world Demo.ops_two) !! pid_processManager Demo.pid0 = Some pm /\
    LocalPid_send Demo.pid0 (JStr "ping") (Demo.world Demo.ops_two) =
      Some (Ok tt, set_deliveries (Demo.world Demo.ops_two)
        (deliveries (Demo.world Demo.ops_two) ++
           [message_to pm (LocalPid_id Demo.pid0) (JStr "ping")])).
Proof.
  assert (Hs : step (ODispose (pid_processManager Demo.pid0))
                 (Demo.world Demo.ops_two) = Some (Demo.world Demo.ops_two))
    by reflexivity.
  split; [exact Hs|].
  destruct (managers (Demo.world Demo.ops_two) !! pid_processManager Demo.pid0)
    as [pm|] eqn:Hm; [|vm_compute in Hm; discriminate].
  exists pm. split; [reflexivity|].
  pose proof (send_after_dispose Demo.pid0 (JStr "ping") (Demo.world Demo.ops_two)
                (Demo.world Demo.ops_two) pm Hs Hm) as [_ Hsend].
  exact Hsend.
Defined.

(** C4 fails on the code: after [dispose()], [pid.send] completes normally
    and a message leaves; it throws no error. *)
Lemma send_after_dispose_completes :
  exists w1 w2,
    step (ODispose 0) (Demo.world Demo.ops_two) = Some w1 /\
    LocalPid_send Demo.pid0 (JStr "ping") w1 = Some (Ok tt, w2) /\
    (forall e w3, LocalPid_send Demo.pid0 (JStr "ping") w1 <> Some (Err e, w3)) /\
    length (deliveries w2) = S (length (deliveries w1)).
Proof.
  eexists _, _. split; [reflexivity|].
  split; [vm_compute; reflexivity|].
  split; [|vm_compute; reflexivity].
  intros e w3 Hs. vm_compute in Hs. discriminate.
Qed.

Lemma transport_failure_propagates_witness :
  launches (Demo.world Demo.ops_pending) !! 0 = Some (Pending Demo.pending0) /\
  instanceOf_TimeoutError (OtherError "refused") = false /\
  exists w',
    step (OHandshake 0 (TransportSettles (Err (OtherError "refused"))))
      (Demo.world Demo.ops_pending) = Some w' /\
    launches w' !! 0 = Some (Settled (Err (OtherError "refused"))).
Proof.
  split; [reflexivity|]. split; [reflexivity|].
  destruct (transport_failure_propagates (Demo.world Demo.ops_pending) 0
              Demo.pending0 (OtherError "refused") eq_refl eq_refl)
    as (w' & Hs & Hl & _).
  exists w'. split; [exact Hs|exact Hl].
Defined.

(** C8 fails on the code: a handshake exchange that fails with an instance
    of [Promise.TimeoutError] of its own, the timer not having fired,
    rejects [launch] with [HandshakeTimeoutError], not with that error. *)
Lemma transport_timeout_is_relabelled :
  exists w',
    step (OHandshake 0 (TransportSettles (Err TimeoutError)))
      (Demo.world Demo.ops_pending) = Some w' /\
    launches w' !! 0 = Some (Settled (Err HandshakeTimeoutError)) /\
    launches w' !! 0 <> Some (Settled (Err TimeoutError)).
Proof.
  eexists. split; [vm_compute; reflexivity|].
  split; [reflexivity|]. simpl. discriminate.
Qed.

Lemma handshake_timeout_resolution_witness :
  reachable (Demo.world Demo.ops_manager) /\
  0 < length (managers (Demo.world Demo.ops_manager)) /\
  pType (Demo.spec (Some (JsFinite 50))) = "local" /\
  delegateBuilder (Demo.spec (Some (JsFinite 50))) createDelegateContext =
    Ok (Some Demo.Echo) /\
  exists p w',
    ProcessManager_launch 0 (Demo.spec (Some (JsFinite 50)))
      (Demo.world Demo.ops_manager) = Some (Ok 0, w') /\
    launches w' !! 0 = Some (Pending p) /\
    pl_timeout p = JsFinite 50.
Proof.
  assert (Hlt : 0 < length (managers (Demo.world Demo.ops_manager)))
    by (vm_compute; lia).
  split; [apply demo_manager|]. split; [exact Hlt|].
  split; [reflexivity|]. split; [reflexivity|].
  destruct (handshake_timeout_resolution (Demo.world Demo.ops_manager) 0
              (Demo.spec (Some (JsFinite 50))) Demo.Echo demo_manager Hlt
              eq_refl eq_refl) as (pm & w' & Hm & Hl & Hif).
  assert (Hfree : identity_in_use (pm_exchange pm)
                    (UUID_v4 (uuid_calls (Demo.world Demo.ops_manager)))
                    (Demo.world Demo.ops_manager) = false)
    by (vm_compute in Hm; injection Hm as <-; vm_compute; reflexivity).
  rewrite Hfree in Hif. destruct Hif as (p & Hp & Ht).
  exists p, w'. split; [exact Hl|]. split; [exact Hp|exact Ht].
Defined.

(** C5 fails on the code: a spec with [handshakeTimeout: 0] waits for the
    default of 1000, not for 0. *)
Lemma zero_timeout_falls_back :
  handshakeTimeout (Demo.spec (Some (JsFinite 0))) = Some (JsFinite 0) /\
  exists p w',
    ProcessManager_launch 0 (Demo.spec (Some (JsFinite 0)))
      (Demo.world Demo.ops_manager) = Some (Ok 0, w') /\
    launches w' !! 0 = Some (Pending p) /\
    pl_timeout p = JsFinite 1000 /\
    pl_timeout p <> JsFinite 0.
Proof.
  split; [reflexivity|]. eexists _, _.
  split; [vm_compute; reflexivity|]. split; [reflexivity|].
  split; [reflexivity|]. simpl. discriminate.
Qed.

Lemma pid_identity_witness :
  fresh_addresses /\ reachable (Demo.world Demo.ops_two) /\
  launches (Demo.world Demo.ops_two) !! 0 = Some (Settled (Ok Demo.pid0)) /\
  launches (Demo.world Demo.ops_two) !! 1 = Some (Settled (Ok Demo.pid1)) /\
  0 <> 1 /\
  LocalPid_id Demo.pid0 <> LocalPid_id Demo.pid1.
Proof.
  assert (Hne : 0 <> 1) by lia.
  split; [apply demo_fresh_addresses|]. split; [apply demo_two|].
  split; [reflexivity|]. split; [reflexivity|]. split; [exact Hne|].
  apply (proj1 (pid_identity (Demo.world Demo.ops_two) 0 1 Demo.pid0 Demo.pid1
                  demo_fresh_addresses demo_two eq_refl eq_refl Hne)).
Defined.

Lemma pid_and_process_addresses_witness :
  exists w',
    launchLocal_start 0 (Demo.spec None) (Demo.world Demo.ops_manager) =
      Some (Ok Demo.pending0, w') /\
    LocalPid_id (pl_pid Demo.pending0) = "id-u" /\
    LocalProcess_mailboxId (pl_proc Demo.pending0) = "mbox-id-u" /\
    LocalPid_id (pl_pid Demo.pending0) <> LocalProcess_mailboxId (pl_proc Demo.pending0).
Proof.
  assert (Hrun : launchLocal_start 0 (Demo.spec None) (Demo.world Demo.ops_manager)
                 = Some (Ok Demo.pending0,
                         default init (snd <$> launchLocal_start 0 (Demo.spec None)
                                                 (Demo.world Demo.ops_manager))))
    by (vm_compute; reflexivity).
  eexists. split; [exact Hrun|]. split; [reflexivity|]. split; [reflexivity|].
  destruct (pid_and_process_addresses 0 (Demo.spec None)
              (Demo.world Demo.ops_manager) _ Demo.pending0 Hrun)
    as (pm & _ & _ & _ & _ & _ & Hiff).
  intros Heq. apply Hiff in Heq. vm_compute in Heq. discriminate.
Defined.

End OnDemo.

(** * More of the code *)

Section MoreProperties.
Context `{Thicket}.

Ltac run_methods :=
  repeat (unfold after, bind, ret, throw, lift, deref, assign_procs,
            UUID_v4_call, Exchange_mailbox_call, Courier_send,
            Courier_sendAndReceive, Promise_start, Promise_then,
            Promise_catch, Promise_timeout in *;
          simpl in *).

Lemma step_effect op w w' : step op w = Some w' -> effect op w w'.
Proof.
  destruct op as [x mid|m spec|m to data|m pid|m|m|pid data|l ev]; simpl.
  - unfold new_ProcessManager. run_methods. rewrite in_use_after_draw.
    destruct (identity_in_use x _ w) eqn:Huse; simpl; intros [= <-].
    + by eapply ef_refused.
    + by eapply ef_new.
  - unfold ProcessManager_launch, launchLocal_start, ProcessManager_mailboxId,
      new_LocalProcess, Options_getOrError.
    destruct (String.eqb (pType spec) "local") eqn:Hty.
    + apply String.eqb_eq in Hty. run_methods.
      destruct (managers w !! m) as [pm|] eqn:Hm; simpl; [|done].
      rewrite in_use_after_draw.
      destruct (identity_in_use (pm_exchange pm) _ w) eqn:Huse; simpl.
      { intros [= <-].
        eapply (ef_rejected _ _ _ m spec Exchange_refusal (S (uuid_calls w)));
          [done|lia|done]. }
      destruct (delegateBuilder spec createDelegateContext) as [[d|]|e] eqn:Hd; simpl.
      * rewrite Hm. simpl. intros [= <-]. by eapply (ef_pending _ _ _ m spec pm d).
      * rewrite Hm. simpl. intros [= <-]. by eapply (ef_threw _ _ _ m spec pm).
      * intros [= <-]. by eapply (ef_threw _ _ _ m spec pm e).
    + run_methods. intros [= <-].
      by eapply (ef_rejected _ _ _ m spec InvalidProcessSpecType (uuid_calls w)).
  - unfold ProcessManager_sendMessage. run_methods.
    destruct (managers w !! m) as [pm|] eqn:Hm; simpl; [|done]. intros [= <-].
    eapply (ef_sent _ _ _ m pm to data); [done..|].
    unfold message_to. by destruct data.
  - unfold ProcessManager_doesOwn. run_methods.
    destruct (managers w !! m); simpl; [|done]. intros [= <-]. by apply ef_read.
  - unfold ProcessManager_mailboxId. run_methods.
    destruct (managers w !! m); simpl; [|done]. intros [= <-]. by apply ef_read.
  - unfold ProcessManager_dispose. run_methods. intros [= <-]. by apply ef_read.
  - unfold LocalPid_send, ProcessManager_sendMessage. run_methods.
    destruct (managers w !! pid_processManager pid) as [pm|] eqn:Hm; simpl; [|done].
    intros [= <-].
    eapply (ef_sent _ _ _ _ pm (pid_mailboxId pid) data); [done..|].
    unfold message_to. by destruct data.
  - unfold settle, launchLocal_settle, register.
    destruct (launches w !! l) as [[p|r]|] eqn:Hl; [| |done].
    + destruct ev as [[v|e]|]; run_methods.
      * destruct (managers w !! pl_manager p) as [pm|] eqn:Hm; simpl; [|done].
        rewrite Hm. simpl. intros [= <-]. by eapply ef_resolved.
      * destruct (instanceOf_TimeoutError e) eqn:He; intros [= <-];
          eapply (ef_failed _ _ _ l _ p e); try done; by rewrite He.
      * intros [= <-]. by eapply (ef_failed _ _ _ l _ p TimeoutError).
    + intros [= <-]. by eapply ef_late.
Qed.

(** ** Launching *)

(** X1: a launch of a local spec whose builder returns a delegate (an
    object, not [undefined] or [null]), on a manager whose exchange has no
    mailbox owned by the identifier drawn, draws one identifier, allocates
    one mailbox for it on the exchange of the manager, sends one handshake
    request to the owner identity of that mailbox and leaves a pending
    promise; no process table changes before the reply. *)
Theorem launch_starts_handshake (w : World) (m : mref) (pm : ProcessManager)
    (spec : ProcessSpec) (d : Delegate) :
  managers w !! m = Some pm ->
  pType spec = "local" ->
  identity_in_use (pm_exchange pm) (UUID_v4 (uuid_calls w)) w = false ->
  delegateBuilder spec createDelegateContext = Ok (Some d) ->
  ProcessManager_launch m spec w =
    Some (Ok (length (launches w)),
          {| uuid_calls := S (uuid_calls w);
             allocated := allocated w ++
               [(pm_exchange pm, next_mailbox (pm_exchange pm) w)];
             deliveries := deliveries w ++
               [handshake_to pm (mb_ownerIdentity (next_mailbox (pm_exchange pm) w))];
             managers := managers w;
             launches := launches w ++ [Pending (pending_of m pm spec d w)] |}).
Proof.
  intros Hm Hty Huse Hd.
  unfold ProcessManager_launch, launchLocal_start, ProcessManager_mailboxId,
    new_LocalProcess, Options_getOrError.
  rewrite Hty. run_methods. rewrite Hm. simpl. rewrite in_use_after_draw, Huse.
  simpl. rewrite Hd. simpl. by rewrite Hm.
Qed.

(** X2: when the builder of the spec throws, [launch] is rejected with the
    very error thrown, also when it is an instance of
    [Promise.TimeoutError] (the [catch] is not on this path); no handshake
    is sent and no table changes, but the identifier has been drawn and the
    mailbox allocated, and they stay.  (The builder runs once the exchange
    has given the mailbox.) *)
Theorem launch_builder_throws (w : World) (m : mref) (pm : ProcessManager)
    (spec : ProcessSpec) (e : Error) :
  managers w !! m = Some pm ->
  pType spec = "local" ->
  identity_in_use (pm_exchange pm) (UUID_v4 (uuid_calls w)) w = false ->
  delegateBuilder spec createDelegateContext = Err e ->
  ProcessManager_launch m spec w =
    Some (Ok (length (launches w)),
          {| uuid_calls := S (uuid_calls w);
             allocated := allocated w ++
               [(pm_exchange pm, next_mailbox (pm_exchange pm) w)];
             deliveries := deliveries w;
             managers := managers w;
             launches := launches w ++ [Settled (Err e)] |}).
Proof.
  intros Hm Hty Huse Hd.
  unfold ProcessManager_launch, launchLocal_start, ProcessManager_mailboxId.
  rewrite Hty. run_methods. rewrite Hm. simpl. rewrite in_use_after_draw, Huse.
  simpl. by rewrite Hd.
Qed.

(** X13: when the builder of the spec returns [undefined] or [null], the
    constructor of the process throws for its [delegate] option and
    [launch] is rejected with that error; no handshake is sent and no table
    changes, but the identifier has been drawn and the mailbox allocated,
    and they stay. *)
Theorem launch_without_delegate (w : World) (m : mref) (pm : ProcessManager)
    (spec : ProcessSpec) :
  managers w !! m = Some pm ->
  pType spec = "local" ->
  identity_in_use (pm_exchange pm) (UUID_v4 (uuid_calls w)) w = false ->
  delegateBuilder spec createDelegateContext = Ok None ->
  ProcessManager_launch m spec w =
    Some (Ok (length (launches w)),
          {| uuid_calls := S (uuid_calls w);
             allocated := allocated w ++
               [(pm_exchange pm, next_mailbox (pm_exchange pm) w)];
             deliveries := deliveries w;
             managers := managers w;
             launches := launches w ++
               [Settled (Err (Options_missing "delegate"))] |}).
Proof.
  intros Hm Hty Huse Hd.
  unfold ProcessManager_launch, launchLocal_start, ProcessManager_mailboxId,
    new_LocalProcess, Options_getOrError.
  rewrite Hty. run_methods. rewrite Hm. simpl. rewrite in_use_after_draw, Huse.
  simpl. rewrite Hd. simpl. by rewrite Hm.
Qed.

(** X14: when a mailbox of the exchange of the manager is owned by the
    identifier drawn, the exchange refuses the mailbox and [launch] is
    rejected with the error of the exchange: the builder is not called,
    nothing is allocated or sent and no table changes; the identifier has
    been drawn. *)
Theorem launch_refused_by_exchange (w : World) (m : mref) (pm : ProcessManager)
    (spec : ProcessSpec) :
  managers w !! m = Some pm ->
  pType spec = "local" ->
  identity_in_use (pm_exchange pm) (UUID_v4 (uuid_calls w)) w = true ->
  ProcessManager_launch m spec w =
    Some (Ok (length (launches w)),
          {| uuid_calls := S (uuid_calls w);
             allocated := allocated w;
             deliveries := deliveries w;
             managers := managers w;
             launches := launches w ++ [Settled (Err Exchange_refusal)] |}).
Proof.
  intros Hm Hty Huse.
  unfold ProcessManager_launch, launchLocal_start.
  rewrite Hty. run_methods. rewrite Hm. simpl. by rewrite in_use_after_draw, Huse.
Qed.

(** ** The constructor *)

(** X3: the constructor draws an identifier whether or not [mailboxId] is
    given, and asks the exchange for a mailbox for [mailboxId], or else for
    that identifier.  When a mailbox of the exchange is owned by that
    identity the constructor throws the error of the exchange and makes no
    manager.  Otherwise it allocates the mailbox and adds a manager that
    owns no PID and whose [mailboxId()] is the [id()] of that mailbox; the
    managers there were stay as they are. *)
Theorem constructor_makes_empty_manager (w : World) (x : Exchange)
    (mailboxId : option string) :
  if identity_in_use x (default (UUID_v4 (uuid_calls w)) mailboxId) w
  then
    new_ProcessManager x mailboxId w =
      Some (Err Exchange_refusal, set_uuid_calls w (S (uuid_calls w)))
  else
    exists w',
      new_ProcessManager x mailboxId w = Some (Ok (length (managers w)), w') /\
      uuid_calls w' = S (uuid_calls w) /\
      allocated w' = allocated w ++
        [(x, Exchange_mailbox x (default (UUID_v4 (uuid_calls w)) mailboxId))] /\
      managers w' = managers w ++ [constructed x mailboxId w] /\
      launches w' = launches w /\
      deliveries w' = deliveries w /\
      (forall pid,
         ProcessManager_doesOwn (length (managers w)) pid w' = Some (Ok false, w')) /\
      ProcessManager_mailboxId (length (managers w)) w' =
        Some (Ok (mb_id (Exchange_mailbox x (default (UUID_v4 (uuid_calls w)) mailboxId))),
              w') /\
      (forall m pm, managers w !! m = Some pm -> managers w' !! m = Some pm).
Proof.
  destruct (identity_in_use x (default (UUID_v4 (uuid_calls w)) mailboxId) w)
    eqn:Huse.
  { unfold new_ProcessManager. run_methods. by rewrite in_use_after_draw, Huse. }
  eexists. split.
  { unfold new_ProcessManager. run_methods. rewrite in_use_after_draw, Huse.
    reflexivity. }
  simpl. repeat (split; [done|]).
  assert (Hnew : (managers w ++ [constructed x mailboxId w]) !! length (managers w)
                 = Some (constructed x mailboxId w)).
  { apply lookup_snoc_Some. by right. }
  split; [|split].
  - intros pid. rewrite (doesOwn_run _ _ (constructed x mailboxId w)) by exact Hnew.
    simpl. rewrite lookup_empty. rewrite bool_decide_eq_false_2; [done|by intros [? ?]].
  - unfold ProcessManager_mailboxId, bind, deref, ret.
    change (managers _ !! length (managers w)) with
      ((managers w ++ [constructed x mailboxId w]) !! length (managers w)).
    by rewrite Hnew.
  - intros m pm Hm. by apply lookup_app_l_Some.
Qed.

(** ** Settling *)

(** X4: a launch promise settles once: after the first event on a pending
    launch, whatever it was, the promise keeps its settlement along every
    run, and every later event for it (a reply after a failure, the timer
    after a reply) leaves the world as it is. *)
Theorem promise_settles_once (w w1 : World) (l : lref) (p : PendingLaunch)
    (ev : HandshakeEvent) :
  launches w !! l = Some (Pending p) ->
  step (OHandshake l ev) w = Some w1 ->
  exists r,
    launches w1 !! l = Some (Settled r) /\
    forall ops w2,
      run ops w1 = Some w2 ->
      launches w2 !! l = Some (Settled r) /\
      forall ev', step (OHandshake l ev') w2 = Some w2.
Proof.
  intros Hl Hs.
  assert (Hlt : l < length (launches w)) by (by eapply lookup_lt_Some).
  assert (exists r, launches w1 !! l = Some (Settled r)) as [r Hr].
  { apply step_effect in Hs.
    destruct Hs as [Hrd _|? ? ? ? Hsd _ _|? ? Hop _ _|? ? ? ? Hop _ _
                   |? ? ? ? Hop _ _ _ _|? ? ? ? Hop _ _ _ _ _|l0 ev0 r Hop Hl0 _
                   |l0 v p0 pm Hop Hl0 _ ->|l0 ev0 p0 e Hop Hl0 _ ->
                   |? ? Hop _ _];
      try discriminate.
    - injection Hop as -> ->. rewrite Hl in Hl0. discriminate.
    - injection Hop as -> ->. eexists. simpl. by apply list_lookup_insert_eq.
    - injection Hop as -> ->. eexists. simpl. by apply list_lookup_insert_eq. }
  exists r. split; [done|]. intros ops w2 Hrun.
  pose proof (run_settled _ _ _ _ _ Hrun Hr) as Hr2.
  split; [done|]. intros ev'. simpl. by eapply settle_settled.
Qed.

(** X5: the table of a manager changes in one way only: by the reply to
    the handshake of a pending launch of that manager, which puts the
    process of that launch under the id of its PID. *)
Theorem table_changes_only_on_reply (op : Op) (w w' : World) (m : mref)
    (pm pm' : ProcessManager) :
  step op w = Some w' ->
  managers w !! m = Some pm ->
  managers w' !! m = Some pm' ->
  pm_procs pm' <> pm_procs pm ->
  exists l v p,
    op = OHandshake l (TransportSettles (Ok v)) /\
    launches w !! l = Some (Pending p) /\
    pl_manager p = m /\
    pm_procs pm' = <[LocalPid_id (pl_pid p) := pl_proc p]> (pm_procs pm).
Proof.
  intros Hs Hm Hm' Hne. apply step_effect in Hs.
  assert (Hsame : managers w' !! m = Some pm -> False).
  { intros Heq. rewrite Heq in Hm'. injection Hm' as <-. by apply Hne. }
  destruct Hs as [_ ->|? ? ? ? _ _ ->|? ? _ _ ->|? ? ? ? _ _ ->|? ? ? ? _ _ _ _ ->
                 |? ? ? ? _ _ _ _ _ ->|? ? ? _ _ ->
                 |l v p pm0 -> Hl Hpm0 ->|? ? ? ? _ _ _ ->|? ? _ _ ->];
    simpl in *; try (by destruct Hsame).
  - destruct Hsame. by apply lookup_app_l_Some.
  - destruct (decide (pl_manager p = m)) as [Heq|Hneq].
    + subst m. rewrite Hm in Hpm0. injection Hpm0 as <-.
      rewrite list_lookup_insert_eq in Hm' by (by eapply lookup_lt_Some).
      injection Hm' as <-. by exists l, v, p.
    + destruct Hsame. by rewrite list_lookup_insert_ne.
Qed.

(** ** What a manager keeps *)

Lemma effect_keeps_identity op w w' m pm :
  effect op w w' ->
  managers w !! m = Some pm ->
  exists pm',
    managers w' !! m = Some pm' /\
    pm_mailbox pm' = pm_mailbox pm /\
    pm_exchange pm' = pm_exchange pm /\
    pm_courier pm' = pm_courier pm /\
    pm_handshakeTimeout pm' = pm_handshakeTimeout pm.
Proof.
  intros He Hm.
  destruct He as [_ ->|? ? ? ? _ _ ->|? ? _ _ ->|? ? ? ? _ _ ->|? ? ? ? _ _ _ _ ->
                 |? ? ? ? _ _ _ _ _ ->|? ? ? _ _ ->
                 |l v p pm0 _ Hl Hpm0 ->|? ? ? ? _ _ _ ->|? ? _ _ ->];
    simpl; eauto 10.
  - exists pm. split; [by apply lookup_app_l_Some|done].
  - destruct (decide (pl_manager p = m)) as [Heq|Hneq].
    + subst m. rewrite Hm in Hpm0. injection Hpm0 as <-.
      exists (registered p pm). split; [|done].
      apply list_lookup_insert_eq. by eapply lookup_lt_Some.
    + exists pm. split; [|done]. by rewrite list_lookup_insert_ne.
Qed.

Lemma effect_logs_grow op w w' :
  effect op w w' ->
  (forall a, a ∈ allocated w -> a ∈ allocated w') /\
  (forall d, d ∈ deliveries w -> d ∈ deliveries w').
Proof.
  intros He.
  destruct He as [_ ->|? ? ? ? _ _ ->|? ? _ _ ->|? ? ? ? _ _ ->|? ? ? ? _ _ _ _ ->
                 |? ? ? ? _ _ _ _ _ ->|? ? ? _ _ ->
                 |l v p pm0 _ Hl Hpm0 ->|? ? ? ? _ _ _ ->|? ? _ _ ->];
    simpl; split; intros ? ?; rewrite ?elem_of_app; auto.
Qed.

(** X6: along every run a manager keeps its mailbox, exchange, courier and
    handshake timeout, so that [mailboxId()] returns the same address
    whatever has been launched, sent or disposed in between. *)
Theorem manager_keeps_identity (ops : list Op) (w w' : World) (m : mref)
    (pm : ProcessManager) :
  run ops w = Some w' ->
  managers w !! m = Some pm ->
  exists pm',
    managers w' !! m = Some pm' /\
    pm_mailbox pm' = pm_mailbox pm /\
    pm_exchange pm' = pm_exchange pm /\
    pm_courier pm' = pm_courier pm /\
    pm_handshakeTimeout pm' = pm_handshakeTimeout pm /\
    ProcessManager_mailboxId m w' = Some (Ok (mb_id (pm_mailbox pm)), w').
Proof.
  revert w pm. induction ops as [|op ops IH]; simpl; intros w pm Hrun Hm.
  - injection Hrun as <-. exists pm. repeat (split; [done|]).
    unfold ProcessManager_mailboxId. run_methods. by rewrite Hm.
  - destruct (step op w) as [w1|] eqn:Hs; [|done].
    destruct (effect_keeps_identity op w w1 m pm (step_effect _ _ _ Hs) Hm)
      as (pm1 & Hm1 & Hb & Hx & Hc & Ht).
    destruct (IH w1 pm1 Hrun Hm1) as (pm' & Hm' & Hb' & Hx' & Hc' & Ht' & Hid).
    exists pm'. split; [done|]. rewrite Hb', Hx', Hc', Ht', Hid. by rewrite Hb.
Qed.

(** ** What a table holds *)

(** X7: in every world the program can reach, [doesOwn(pid)] on a manager
    is true exactly when a launch of that manager has resolved with a PID
    of the same id. *)
Theorem doesOwn_iff_resolved (w : World) (m : mref) (pm : ProcessManager)
    (pid : LocalPid) :
  reachable w ->
  managers w !! m = Some pm ->
  ProcessManager_doesOwn m pid w = Some (Ok true, w) <->
  exists l pid',
    launches w !! l = Some (Settled (Ok pid')) /\
    LocalPid_id pid' = LocalPid_id pid /\
    pid_processManager pid' = m.
Proof.
  intros Hw Hm. pose proof (reachable_wf w Hw) as Hwf.
  rewrite (doesOwn_run _ _ _ _ Hm). split.
  - intros [= Hb]. apply bool_decide_eq_true_1 in Hb.
    by apply (wf_origin w Hwf m pm).
  - intros (l & pid' & Hl & Hid & Hpm).
    destruct (wf_owned w Hwf l pid' Hl) as (pm' & Hm' & Hk).
    rewrite Hpm, Hm in Hm'. injection Hm' as <-. rewrite Hid in Hk.
    by rewrite bool_decide_eq_true_2.
Qed.

(** X8: a PID that a launch of one manager resolved with is not owned by
    any other manager, given that the addresses thicket issues are fresh. *)
Theorem doesOwn_false_elsewhere (w : World) (l : lref) (pid : LocalPid)
    (m : mref) (pm : ProcessManager) :
  fresh_addresses ->
  reachable w ->
  launches w !! l = Some (Settled (Ok pid)) ->
  managers w !! m = Some pm ->
  m <> pid_processManager pid ->
  ProcessManager_doesOwn m pid w = Some (Ok false, w).
Proof.
  intros Hc Hw Hl Hm Hne. rewrite (doesOwn_run _ _ _ _ Hm).
  rewrite bool_decide_eq_false_2; [done|]. intros Hk.
  destruct (wf_origin w (reachable_wf w Hw) m pm _ Hm Hk)
    as (l' & pid' & Hl' & Hid & Hpm).
  assert (l' = l) as ->.
  { eapply (fresh_distinct w (reachable_fresh w Hc Hw) l' l);
      [exact Hl'|exact Hl|done..]. }
  rewrite Hl in Hl'. injection Hl' as <-. by apply Hne.
Qed.

Lemma effect_built_by op w w' m pid proc :
  effect op w w' -> built_by w m pid proc -> built_by w' m pid proc.
Proof.
  intros He (pm & Hm & Hpm & Hid & Hlp & Hbox & Hco & Hal & Hde).
  destruct (effect_keeps_identity op w w' m pm He Hm)
    as (pm' & Hm' & Hb & Hx & Hc & _).
  destruct (effect_logs_grow op w w' He) as [Hga Hgd].
  exists pm'. rewrite Hb, Hx. repeat (split; [done|]). split; [by apply Hga|].
  apply Hgd. unfold handshake_to in *. by rewrite Hc.
Qed.

Lemma provenance_init : provenance init.
Proof. split; simpl; intros *; by rewrite ?lookup_nil. Qed.

Lemma effect_provenance op w w' : provenance w -> effect op w w' -> provenance w'.
Proof.
  intros [Hpen Htab] He.
  assert (Hmono : forall m pid proc,
            built_by w m pid proc -> built_by w' m pid proc)
    by (intros; by eapply effect_built_by).
  assert (Hold : forall m pm k proc,
            managers w !! m = Some pm -> pm_procs pm !! k = Some proc ->
            exists pid, LocalPid_id pid = k /\ built_by w' m pid proc).
  { intros m pm k proc Hm Hk.
    destruct (Htab m pm k proc Hm Hk) as (pid & ? & ?). eauto. }
  destruct He as [_ ->|m0 pm0 to0 data0 _ _ ->|x0 mid0 _ _ ->
                 |m0 spec0 e0 n0 _ Hle0 ->
                 |m0 spec0 pm0 e0 _ _ Hm0 _ ->
                 |m0 spec0 pm0 d0 _ _ Hm0 _ _ ->|l0 ev0 r0 _ _ ->
                 |l0 v0 p0 pm0 _ Hl0 Hpm0 ->|l0 ev0 p0 e0 _ Hl0 _ ->
                 |x0 mid0 _ _ ->];
    split; simpl; eauto.
  - intros m pm k proc [[_ Hm]|[_ <-]]%lookup_snoc_Some Hk; [eauto|done].
  - intros l p [[_ Hl]|[_ ?]]%lookup_snoc_Some; [eauto|done].
  - intros l p [[_ Hl]|[_ ?]]%lookup_snoc_Some; [eauto|done].
  - intros l p [[_ Hl]|[_ [= <-]]]%lookup_snoc_Some; [eauto|].
    exists pm0. simpl. repeat (split; [done|]).
    split; apply elem_of_app; right; by apply list_elem_of_singleton.
  - intros l q [(_ & ? & _)|[_ Hq]]%list_lookup_insert_Some; [done|eauto].
  - intros m pm k proc [(<- & <- & _)|[_ Hm]]%list_lookup_insert_Some Hk; [|eauto].
    simpl in Hk. apply lookup_insert_Some in Hk as [[<- <-]|[_ Hk]]; [|eauto].
    exists (pl_pid p0). split; [done|]. eauto.
  - intros l q [(_ & ? & _)|[_ Hq]]%list_lookup_insert_Some; [done|eauto].
Qed.

Lemma reachable_provenance w : reachable w -> provenance w.
Proof.
  induction 1 as [|op w w' _ IH Hstep]; [apply provenance_init|].
  eauto using effect_provenance, step_effect.
Qed.

Lemma reachable_allocated w x mb :
  reachable w -> (x, mb) ∈ allocated w -> exists s, mb = Exchange_mailbox x s.
Proof.
  induction 1 as [|op w w' _ IH Hstep]; [by intros ?%elem_of_nil|].
  apply step_effect in Hstep.
  destruct Hstep as [_ ->|m0 pm0 to0 data0 _ _ ->|x0 mid0 _ _ ->
                    |m0 spec0 e0 n0 _ Hle0 ->
                    |m0 spec0 pm0 e0 _ _ Hm0 _ ->
                    |m0 spec0 pm0 d0 _ _ Hm0 _ _ ->|l0 ev0 r0 _ _ ->
                    |l0 v0 p0 pm0 _ Hl0 Hpm0 ->|l0 ev0 p0 e0 _ Hl0 _ ->
                    |x0 mid0 _ _ ->];
    simpl; try done;
    intros [Hin|[= -> ->]%list_elem_of_singleton]%elem_of_app; eauto.
Qed.

(** X9: in every world the program can reach, the process under a key of
    the table of a manager was built for that key on that manager: its id
    and the owner identity of its mailbox are the key, it knows the
    [mailboxId()] of the manager, its mailbox was allocated on the exchange
    of the manager, and the handshake request for the key has been sent by
    the courier of the manager; with one address per mailbox its
    [mailboxId()] is the key. *)
Theorem table_entry_built_for_key (w : World) (m : mref) (pm : ProcessManager)
    (k : string) (proc : LocalProcess) :
  reachable w ->
  managers w !! m = Some pm ->
  pm_procs pm !! k = Some proc ->
  lp_id proc = k /\
  mb_ownerIdentity (lp_mailbox proc) = k /\
  lp_pmMboxId proc = mb_id (pm_mailbox pm) /\
  (pm_exchange pm, lp_mailbox proc) ∈ allocated w /\
  handshake_to pm k ∈ deliveries w /\
  (single_address -> LocalProcess_mailboxId proc = k).
Proof.
  intros Hw Hm Hk.
  destruct (prov_table w (reachable_provenance w Hw) m pm k proc Hm Hk)
    as (pid & <- & pm' & Hm' & _ & Hid & Hlp & Hbox & _ & Hal & Hde).
  rewrite Hm in Hm'. injection Hm' as <-.
  repeat (split; [done|]). intros Hone. unfold LocalProcess_mailboxId.
  destruct (reachable_allocated w _ _ Hw Hal) as (s & Hs).
  rewrite Hs, Hone, <- Hs. by rewrite <- Hid.
Qed.

(** ** Counting the registrations *)

Lemma filter_none_length {A} (P : A -> Prop) `{!forall x, Decision (P x)}
    (xs : list A) :
  (forall x, x ∈ xs -> ~ P x) -> length (filter P xs) = 0.
Proof.
  induction xs as [|x xs IH]; intros Hno; [done|].
  rewrite filter_cons_False by (apply Hno; left).
  apply IH. intros y Hy. apply Hno. by right.
Qed.

Lemma filter_length_snoc {A} (P : A -> Prop) `{!forall x, Decision (P x)}
    (xs : list A) (y : A) :
  length (filter P (xs ++ [y])) =
  length (filter P xs) + (if decide (P y) then 1 else 0).
Proof.
  rewrite filter_app, length_app, filter_cons, filter_nil.
  by destruct (decide (P y)).
Qed.

Lemma filter_length_insert {A} (P : A -> Prop) `{!forall x, Decision (P x)}
    (xs : list A) (i : nat) (x y : A) :
  xs !! i = Some x -> ~ P x ->
  length (filter P (<[i := y]> xs)) =
  length (filter P xs) + (if decide (P y) then 1 else 0).
Proof.
  intros Hi Hx.
  rewrite insert_take_drop by (by eapply lookup_lt_Some).
  rewrite <- (take_drop_middle xs i x Hi) at 3.
  rewrite !filter_app, !length_app, !filter_cons.
  rewrite (decide_False (P := P x)) by done.
  destruct (decide (P y)); simpl; lia.
Qed.

(** The address of a pending launch is not yet a key of the table. *)
Lemma pending_not_registered w l p pm :
  fresh_addresses -> reachable w ->
  launches w !! l = Some (Pending p) ->
  managers w !! pl_manager p = Some pm ->
  pm_procs pm !! LocalPid_id (pl_pid p) = None.
Proof.
  intros Hc Hw Hl Hm.
  destruct (pm_procs pm !! LocalPid_id (pl_pid p)) as [proc|] eqn:Hk; [|done].
  destruct (wf_origin w (reachable_wf w Hw) _ pm _ Hm (mk_is_Some _ _ Hk))
    as (l' & pid' & Hl' & Hid & _).
  assert (l' = l) as ->.
  { eapply (fresh_distinct w (reachable_fresh w Hc Hw) l' l);
      [exact Hl'|exact Hl|done..]. }
  rewrite Hl in Hl'. done.
Qed.

Lemma reachable_counted w :
  fresh_addresses -> reachable w ->
  forall m pm, managers w !! m = Some pm -> size (pm_procs pm) = registrations m w.
Proof.
  intros Hc. induction 1 as [|op w w' Hw IH Hstep]; [by intros m pm ?|].
  pose proof (reachable_wf w Hw) as Hwf.
  apply step_effect in Hstep. unfold registrations in *.
  destruct Hstep as [_ ->|m0 pm0 to0 data0 _ _ ->|x0 mid0 _ _ ->
                    |m0 spec0 e0 n0 _ Hle0 ->
                    |m0 spec0 pm0 e0 _ _ Hm0 _ ->
                    |m0 spec0 pm0 d0 _ _ Hm0 _ _ ->|l0 ev0 r0 _ _ ->
                    |l0 v0 p0 pm0 _ Hl0 Hpm0 ->|l0 ev0 p0 e0 _ Hl0 _ ->
                    |x0 mid0 _ _ ->];
    simpl; try done.
  - intros m pm [[_ Hm]|[-> <-]]%lookup_snoc_Some; [eauto|].
    simpl. rewrite map_size_empty. symmetry. apply filter_none_length.
    intros [p|[pid|e]] Hin; simpl; [tauto| |tauto]. intros Hpid.
    apply list_elem_of_lookup in Hin as [l Hl].
    destruct (wf_owned w Hwf l pid Hl) as (pm & Hpm & _).
    apply lookup_lt_Some in Hpm. lia.
  - intros m pm Hm. rewrite filter_length_snoc. simpl.
    rewrite (IH m pm Hm). destruct (decide False); [done|lia].
  - intros m pm Hm. rewrite filter_length_snoc. simpl.
    rewrite (IH m pm Hm). destruct (decide False); [done|lia].
  - intros m pm Hm. rewrite filter_length_snoc. simpl.
    rewrite (IH m pm Hm). destruct (decide False); [done|lia].
  - destruct (wf_manager w Hwf l0 p0 Hl0) as [Hpidm _].
    intros m pm Hm.
    rewrite (filter_length_insert _ _ _ (Pending p0)) by (done || (simpl; tauto)).
    apply list_lookup_insert_Some in Hm as [(<- & <- & _)|[Hne Hm]].
    + rewrite decide_True by done.
      unfold registered, set_procs. cbn [pm_procs].
      rewrite map_size_insert_None
        by (by eapply (pending_not_registered w l0)).
      rewrite (IH _ pm0 Hpm0). lia.
    + rewrite decide_False by (simpl; congruence).
      rewrite (IH m pm Hm). lia.
  - intros m pm Hm.
    rewrite (filter_length_insert _ _ _ (Pending p0)) by (done || (simpl; tauto)).
    rewrite (IH m pm Hm). simpl. destruct (decide False); [done|lia].
Qed.

(** X10: in every world the program can reach, the table of a manager has
    as many entries as launches of that manager have resolved (given that
    the addresses thicket issues are fresh): each resolved launch is
    registered once, and nothing else is. *)
Theorem table_size_counts_resolved (w : World) (m : mref) (pm : ProcessManager) :
  fresh_addresses ->
  reachable w ->
  managers w !! m = Some pm ->
  size (pm_procs pm) = registrations m w /\
  registrations m w <= length (launches w).
Proof.
  intros Hc Hw Hm. split; [by apply reachable_counted|].
  unfold registrations. apply length_filter.
Qed.

(** ** Sending after a launch *)

(** X11: [pid.send(data)] on a PID that a launch resolved with always
    completes; it hands the courier of the manager that launched it one
    [Message] envelope whose address is a key of the table of that manager,
    and the process under that key is bound to the mailbox with that owner
    identity. *)
Theorem send_reaches_registered_process (w : World) (l : lref) (pid : LocalPid)
    (data : JsValue) :
  reachable w ->
  launches w !! l = Some (Settled (Ok pid)) ->
  exists pm proc,
    managers w !! pid_processManager pid = Some pm /\
    LocalPid_send pid data w =
      Some (Ok tt, set_deliveries w
        (deliveries w ++ [message_to pm (LocalPid_id pid) data])) /\
    pm_procs pm !! d_to (message_to pm (LocalPid_id pid) data) = Some proc /\
    mb_ownerIdentity (lp_mailbox proc) = d_to (message_to pm (LocalPid_id pid) data).
Proof.
  intros Hw Hl.
  destruct (wf_owned w (reachable_wf w Hw) l pid Hl) as (pm & Hm & [proc Hk]).
  exists pm, proc. split; [done|]. split; [by apply sendMessage_run|].
  split; [done|]. simpl.
  destruct (prov_table w (reachable_provenance w Hw) _ pm _ proc Hm Hk)
    as (pid' & Hid' & pm' & _ & _ & Hown & _).
  by rewrite <- Hown.
Qed.

(** ** Launches in flight together *)

Lemma step_reply w l p v pm :
  launches w !! l = Some (Pending p) ->
  managers w !! pl_manager p = Some pm ->
  step (OHandshake l (TransportSettles (Ok v))) w =
    Some {| uuid_calls := uuid_calls w;
            allocated := allocated w;
            deliveries := deliveries w;
            managers := <[pl_manager p := registered p pm]> (managers w);
            launches := <[l := Settled (Ok (pl_pid p))]> (launches w) |}.
Proof.
  intros Hl Hm. simpl.
  by rewrite (settle_pending _ _ _ _ Hl), (settle_reply _ _ _ _ Hm).
Qed.

Lemma step_failure w l p ev e :
  launches w !! l = Some (Pending p) ->
  Promise_timeout ev = Err e ->
  step (OHandshake l ev) w =
    Some (set_launches w
            (<[l := Settled (Err (if instanceOf_TimeoutError e
                                  then HandshakeTimeoutError else e))]>
               (launches w))).
Proof.
  intros Hl He. simpl. rewrite (settle_pending _ _ _ _ Hl).
  destruct ev as [[v|e']|]; simpl in He; [done| |].
  - injection He as ->. by rewrite settle_failure.
  - injection He as <-. by rewrite settle_timer.
Qed.

Lemma event_cases ev :
  (exists v, ev = TransportSettles (Ok v)) \/ (exists e, Promise_timeout ev = Err e).
Proof. destruct ev as [[v|e]|]; simpl; eauto. Qed.

(** X12: the handshakes of two pending launches may settle in either
    order: the world after both events is the same, whatever the events
    are and whether or not the launches are of one manager (given that the
    addresses thicket issues are fresh). *)
Theorem settlements_commute (w : World) (l1 l2 : lref) (p1 p2 : PendingLaunch)
    (ev1 ev2 : HandshakeEvent) :
  fresh_addresses ->
  reachable w ->
  l1 <> l2 ->
  launches w !! l1 = Some (Pending p1) ->
  launches w !! l2 = Some (Pending p2) ->
  exists w',
    run [OHandshake l1 ev1; OHandshake l2 ev2] w = Some w' /\
    run [OHandshake l2 ev2; OHandshake l1 ev1] w = Some w'.
Proof.
  intros Hc Hw Hne Hl1 Hl2.
  pose proof (reachable_wf w Hw) as Hwf.
  destruct (wf_manager w Hwf l1 p1 Hl1) as [_ [pm1 Hm1]%lookup_lt_is_Some].
  destruct (wf_manager w Hwf l2 p2 Hl2) as [_ [pm2 Hm2]%lookup_lt_is_Some].
  assert (Hids : LocalPid_id (pl_pid p1) <> LocalPid_id (pl_pid p2)).
  { intros Heq. apply Hne.
    eapply (fresh_distinct w (reachable_fresh w Hc Hw) l1 l2);
      [exact Hl1|exact Hl2|done..]. }
  assert (Hl1' : forall ms s, launches
            {| uuid_calls := uuid_calls w; allocated := allocated w;
               deliveries := deliveries w; managers := ms;
               launches := <[l2 := s]> (launches w) |} !! l1 = Some (Pending p1))
    by (intros; simpl; by rewrite list_lookup_insert_ne).
  assert (Hl2' : forall ms s, launches
            {| uuid_calls := uuid_calls w; allocated := allocated w;
               deliveries := deliveries w; managers := ms;
               launches := <[l1 := s]> (launches w) |} !! l2 = Some (Pending p2))
    by (intros; simpl; by rewrite list_lookup_insert_ne).
  assert (Hboth : forall a b w1 w2 w1' w2',
            step a w = Some w1 -> step b w1 = Some w2 ->
            step b w = Some w1' -> step a w1' = Some w2' ->
            w2' = w2 ->
            exists w', run [a; b] w = Some w' /\ run [b; a] w = Some w').
  { intros a b w1 w2 w1' w2' Ha Hab Hb Hba ->. exists w2.
    cbn [run]. rewrite Ha, Hb. cbn [run]. by rewrite Hab, Hba. }
  destruct (event_cases ev1) as [[v1 ->]|[e1 He1]],
           (event_cases ev2) as [[v2 ->]|[e2 He2]].
  - (* two replies *)
    destruct (decide (pl_manager p1 = pl_manager p2)) as [Heq|Hneq].
    + assert (pm2 = pm1) as -> by congruence.
      eapply Hboth.
      * apply (step_reply w l1 p1 v1 pm1 Hl1 Hm1).
      * apply (step_reply _ l2 p2 v2 (registered p1 pm1) (Hl2' _ _)).
        simpl. rewrite <- Heq. apply list_lookup_insert_eq. by eapply lookup_lt_Some.
      * apply (step_reply w l2 p2 v2 pm1 Hl2 Hm2).
      * apply (step_reply _ l1 p1 v1 (registered p2 pm1) (Hl1' _ _)).
        simpl. rewrite Heq. apply list_lookup_insert_eq. by eapply lookup_lt_Some.
      * simpl. f_equal.
        -- rewrite Heq, !list_insert_insert_eq. f_equal.
           unfold registered, set_procs. simpl. f_equal. by apply insert_insert_ne.
        -- by apply list_insert_insert_ne.
    + eapply Hboth.
      * apply (step_reply w l1 p1 v1 pm1 Hl1 Hm1).
      * apply (step_reply _ l2 p2 v2 pm2 (Hl2' _ _)).
        simpl. by rewrite list_lookup_insert_ne.
      * apply (step_reply w l2 p2 v2 pm2 Hl2 Hm2).
      * apply (step_reply _ l1 p1 v1 pm1 (Hl1' _ _)).
        simpl. by rewrite list_lookup_insert_ne by done.
      * simpl. f_equal.
        -- apply list_insert_insert_ne. congruence.
        -- by apply list_insert_insert_ne.
  - (* a reply and a failure *)
    eapply Hboth.
    + apply (step_reply w l1 p1 v1 pm1 Hl1 Hm1).
    + apply (step_failure _ l2 p2 ev2 e2 (Hl2' _ _) He2).
    + apply (step_failure w l2 p2 ev2 e2 Hl2 He2).
    + apply (step_reply _ l1 p1 v1 pm1 (Hl1' (managers w) _) Hm1).
    + simpl. f_equal. by apply list_insert_insert_ne.
  - (* a failure and a reply *)
    eapply Hboth.
    + apply (step_failure w l1 p1 ev1 e1 Hl1 He1).
    + apply (step_reply _ l2 p2 v2 pm2 (Hl2' (managers w) _) Hm2).
    + apply (step_reply w l2 p2 v2 pm2 Hl2 Hm2).
    + apply (step_failure _ l1 p1 ev1 e1 (Hl1' _ _) He1).
    + simpl. f_equal. by apply list_insert_insert_ne.
  - (* two failures *)
    eapply Hboth.
    + apply (step_failure w l1 p1 ev1 e1 Hl1 He1).
    + apply (step_failure _ l2 p2 ev2 e2 (Hl2' (managers w) _) He2).
    + apply (step_failure w l2 p2 ev2 e2 Hl2 He2).
    + apply (step_failure _ l1 p1 ev1 e1 (Hl1' (managers w) _) He1).
    + unfold set_launches. simpl. f_equal. by apply list_insert_insert_ne.
Qed.

End MoreProperties.

(** ** More of the code, on the small system *)

Section MoreOnDemo.
#[local] Existing Instance Demo.thicket.

Lemma demo_two_pending : reachable (Demo.world DemoRuns.ops_two_pending).
Proof. apply (demo_reachable DemoRuns.ops_two_pending). vm_compute. reflexivity. Qed.

Lemma demo_managers : reachable (Demo.world DemoRuns.ops_managers).
Proof. apply (demo_reachable DemoRuns.ops_managers). vm_compute. reflexivity. Qed.

Lemma demo_manager_0 :
  exists pm, managers (Demo.world Demo.ops_manager) !! 0 = Some pm.
Proof. eexists. vm_compute. reflexivity. Qed.

Lemma demo_manager0 :
  managers (Demo.world Demo.ops_manager) !! 0 = Some DemoRuns.manager0.
Proof. vm_compute. reflexivity. Qed.

Lemma demo_identifier_free :
  identity_in_use (pm_exchange DemoRuns.manager0)
    (UUID_v4 (uuid_calls (Demo.world Demo.ops_manager)))
    (Demo.world Demo.ops_manager) = false.
Proof. vm_compute. reflexivity. Qed.

Lemma launch_starts_handshake_witness :
  managers (Demo.world Demo.ops_manager) !! 0 = Some DemoRuns.manager0 /\
  pType (Demo.spec None) = "local" /\
  identity_in_use (pm_exchange DemoRuns.manager0)
    (UUID_v4 (uuid_calls (Demo.world Demo.ops_manager)))
    (Demo.world Demo.ops_manager) = false /\
  delegateBuilder (Demo.spec None) createDelegateContext = Ok (Some Demo.Echo) /\
  exists w',
    ProcessManager_launch 0 (Demo.spec None) (Demo.world Demo.ops_manager) =
      Some (Ok 0, w') /\
    deliveries w' = [handshake_to DemoRuns.manager0 "id-u"] /\
    launches w' = [Pending Demo.pending0].
Proof.
  split; [exact demo_manager0|]. split; [reflexivity|].
  split; [exact demo_identifier_free|]. split; [reflexivity|].
  pose proof (launch_starts_handshake (Demo.world Demo.ops_manager) 0
                DemoRuns.manager0 (Demo.spec None) Demo.Echo demo_manager0
                eq_refl demo_identifier_free eq_refl) as Hrun.
  eexists. split; [exact Hrun|]. split; vm_compute; reflexivity.
Defined.

Lemma launch_builder_throws_witness :
  managers (Demo.world Demo.ops_manager) !! 0 = Some DemoRuns.manager0 /\
  pType DemoRuns.throwing = "local" /\
  identity_in_use (pm_exchange DemoRuns.manager0)
    (UUID_v4 (uuid_calls (Demo.world Demo.ops_manager)))
    (Demo.world Demo.ops_manager) = false /\
  delegateBuilder DemoRuns.throwing createDelegateContext = Err TimeoutError /\
  exists w',
    ProcessManager_launch 0 DemoRuns.throwing (Demo.world Demo.ops_manager) =
      Some (Ok 0, w') /\
    launches w' = [Settled (Err TimeoutError)] /\
    length (allocated w') = 2 /\
    deliveries w' = [].
Proof.
  split; [exact demo_manager0|]. split; [reflexivity|].
  split; [exact demo_identifier_free|]. split; [reflexivity|].
  pose proof (launch_builder_throws (Demo.world Demo.ops_manager) 0
                DemoRuns.manager0 DemoRuns.throwing TimeoutError demo_manager0
                eq_refl demo_identifier_free eq_refl) as Hrun.
  eexists. split; [exact Hrun|]. repeat split; vm_compute; reflexivity.
Defined.

Lemma launch_without_delegate_witness :
  managers (Demo.world Demo.ops_manager) !! 0 = Some DemoRuns.manager0 /\
  pType DemoRuns.absent = "local" /\
  identity_in_use (pm_exchange DemoRuns.manager0)
    (UUID_v4 (uuid_calls (Demo.world Demo.ops_manager)))
    (Demo.world Demo.ops_manager) = false /\
  delegateBuilder DemoRuns.absent createDelegateContext = Ok None /\
  exists w',
    ProcessManager_launch 0 DemoRuns.absent (Demo.world Demo.ops_manager) =
      Some (Ok 0, w') /\
    launches w' = [Settled (Err (Options_missing "delegate"))] /\
    length (allocated w') = 2 /\
    deliveries w' = [].
Proof.
  split; [exact demo_manager0|]. split; [reflexivity|].
  split; [exact demo_identifier_free|]. split; [reflexivity|].
  pose proof (launch_without_delegate (Demo.world Demo.ops_manager) 0
                DemoRuns.manager0 DemoRuns.absent demo_manager0
                eq_refl demo_identifier_free eq_refl) as Hrun.
  eexists. split; [exact Hrun|]. repeat split; vm_compute; reflexivity.
Defined.

Lemma demo_taken : reachable (Demo.world DemoRuns.ops_taken).
Proof. apply (demo_reachable DemoRuns.ops_taken). vm_compute. reflexivity. Qed.

Lemma launch_refused_by_exchange_witness :
  reachable (Demo.world DemoRuns.ops_taken) /\
  managers (Demo.world DemoRuns.ops_taken) !! 0 = Some DemoRuns.manager0 /\
  pType (Demo.spec None) = "local" /\
  identity_in_use (pm_exchange DemoRuns.manager0)
    (UUID_v4 (uuid_calls (Demo.world DemoRuns.ops_taken)))
    (Demo.world DemoRuns.ops_taken) = true /\
  exists w',
    ProcessManager_launch 0 (Demo.spec None) (Demo.world DemoRuns.ops_taken) =
      Some (Ok 0, w') /\
    launches w' = [Settled (Err Exchange_refusal)] /\
    allocated w' = allocated (Demo.world DemoRuns.ops_taken) /\
    deliveries w' = [].
Proof.
  assert (Hm : managers (Demo.world DemoRuns.ops_taken) !! 0
               = Some DemoRuns.manager0) by (vm_compute; reflexivity).
  assert (Huse : identity_in_use (pm_exchange DemoRuns.manager0)
                   (UUID_v4 (uuid_calls (Demo.world DemoRuns.ops_taken)))
                   (Demo.world DemoRuns.ops_taken) = true)
    by (vm_compute; reflexivity).
  split; [exact demo_taken|]. split; [exact Hm|]. split; [reflexivity|].
  split; [exact Huse|].
  pose proof (launch_refused_by_exchange (Demo.world DemoRuns.ops_taken) 0
                DemoRuns.manager0 (Demo.spec None) Hm eq_refl Huse) as Hrun.
  eexists. split; [exact Hrun|]. repeat split; vm_compute; reflexivity.
Defined.

Lemma constructor_makes_empty_manager_witness :
  exists w',
    new_ProcessManager 0 (Some "boss") (Demo.world Demo.ops_manager) =
      Some (Ok 1, w') /\
    uuid_calls w' = 2 /\
    ProcessManager_mailboxId 1 w' = Some (Ok "mbox-boss", w') /\
    ProcessManager_doesOwn 1 Demo.pid0 w' = Some (Ok false, w') /\
    new_ProcessManager 0 (Some "boss") w' =
      Some (Err Exchange_refusal, set_uuid_calls w' (S (uuid_calls w'))).
Proof.
  pose proof (constructor_makes_empty_manager (Demo.world Demo.ops_manager) 0
                (Some "boss")) as Hfirst.
  assert (Hfree : identity_in_use 0
                    (default (UUID_v4 (uuid_calls (Demo.world Demo.ops_manager)))
                       (Some "boss"))
                    (Demo.world Demo.ops_manager) = false)
    by (vm_compute; reflexivity).
  rewrite Hfree in Hfirst.
  destruct Hfirst as (w' & Hnew & Hu & Hal & _ & _ & _ & Hown & Hid & _).
  exists w'. split; [exact Hnew|]. split; [exact Hu|].
  split; [exact Hid|]. split; [exact (Hown Demo.pid0)|].
  pose proof (constructor_makes_empty_manager w' 0 (Some "boss")) as Hsecond.
  assert (Huse : identity_in_use 0 (default (UUID_v4 (uuid_calls w')) (Some "boss"))
                   w' = true).
  { unfold identity_in_use. rewrite Hal, existsb_app.
    apply orb_true_iff. right. vm_compute. reflexivity. }
  rewrite Huse in Hsecond. exact Hsecond.
Defined.

Lemma promise_settles_once_witness :
  launches (Demo.world Demo.ops_pending) !! 0 = Some (Pending Demo.pending0) /\
  exists w1,
    step (OHandshake 0 Demo.reply) (Demo.world Demo.ops_pending) = Some w1 /\
    launches w1 !! 0 = Some (Settled (Ok Demo.pid0)) /\
    step (OHandshake 0 TimerFires) w1 = Some w1.
Proof.
  assert (Hl : launches (Demo.world Demo.ops_pending) !! 0
               = Some (Pending Demo.pending0)) by (vm_compute; reflexivity).
  split; [exact Hl|].
  destruct (step (OHandshake 0 Demo.reply) (Demo.world Demo.ops_pending))
    as [w1|] eqn:Hs; [|vm_compute in Hs; discriminate].
  destruct (promise_settles_once (Demo.world Demo.ops_pending) w1 0 Demo.pending0
              Demo.reply Hl Hs) as (r & Hr & Hlater).
  exists w1. split; [reflexivity|].
  destruct (Hlater [] w1 eq_refl) as [_ Hev]. split; [|apply Hev].
  vm_compute in Hs. injection Hs as <-. vm_compute. reflexivity.
Defined.

Lemma table_changes_only_on_reply_witness :
  exists w' pm pm',
    step (OHandshake 0 Demo.reply) (Demo.world Demo.ops_pending) = Some w' /\
    managers (Demo.world Demo.ops_pending) !! 0 = Some pm /\
    managers w' !! 0 = Some pm' /\
    pm_procs pm' <> pm_procs pm /\
    pm_procs pm' = <["id-u" := pl_proc Demo.pending0]> (pm_procs pm).
Proof.
  destruct (step (OHandshake 0 Demo.reply) (Demo.world Demo.ops_pending))
    as [w'|] eqn:Hs; [|vm_compute in Hs; discriminate].
  destruct (managers (Demo.world Demo.ops_pending) !! 0) as [pm|] eqn:Hm;
    [|vm_compute in Hm; discriminate].
  destruct (managers w' !! 0) as [pm'|] eqn:Hm';
    [|vm_compute in Hs; injection Hs as <-; vm_compute in Hm'; discriminate].
  assert (Hne : pm_procs pm' <> pm_procs pm).
  { intros Heq. apply (f_equal (lookup "id-u")) in Heq.
    vm_compute in Hs. injection Hs as <-.
    vm_compute in Hm. injection Hm as <-.
    vm_compute in Hm'. injection Hm' as <-.
    vm_compute in Heq. discriminate. }
  exists w', pm, pm'. split; [reflexivity|]. split; [reflexivity|].
  split; [exact Hm'|]. split; [exact Hne|].
  destruct (table_changes_only_on_reply (OHandshake 0 Demo.reply)
              (Demo.world Demo.ops_pending) w' 0 pm pm' Hs Hm Hm' Hne)
    as (l & v & p & Hop & Hl & _ & Hins).
  injection Hop as <- _.
  assert (p = Demo.pending0) as ->; [|exact Hins].
  vm_compute in Hl. by injection Hl as <-.
Defined.

Lemma manager_keeps_identity_witness :
  exists w' pm,
    run DemoRuns.ops_later (Demo.world Demo.ops_manager) = Some w' /\
    managers (Demo.world Demo.ops_manager) !! 0 = Some pm /\
    ProcessManager_mailboxId 0 (Demo.world Demo.ops_manager) =
      Some (Ok "mbox-id-", Demo.world Demo.ops_manager) /\
    ProcessManager_mailboxId 0 w' = Some (Ok "mbox-id-", w').
Proof.
  destruct (run DemoRuns.ops_later (Demo.world Demo.ops_manager))
    as [w'|] eqn:Hrun; [|vm_compute in Hrun; discriminate].
  destruct demo_manager_0 as [pm Hm].
  exists w', pm. split; [reflexivity|]. split; [exact Hm|].
  split; [vm_compute; reflexivity|].
  destruct (manager_keeps_identity DemoRuns.ops_later (Demo.world Demo.ops_manager)
              w' 0 pm Hrun Hm) as (pm' & _ & _ & _ & _ & _ & Hid).
  rewrite Hid. vm_compute in Hm. by injection Hm as <-.
Defined.

Lemma doesOwn_iff_resolved_witness :
  reachable (Demo.world Demo.ops_two) /\
  exists pm,
    managers (Demo.world Demo.ops_two) !! 0 = Some pm /\
    (exists l pid',
       launches (Demo.world Demo.ops_two) !! l = Some (Settled (Ok pid')) /\
       LocalPid_id pid' = LocalPid_id Demo.pid1 /\ pid_processManager pid' = 0) /\
    ProcessManager_doesOwn 0 Demo.pid1 (Demo.world Demo.ops_two) =
      Some (Ok true, Demo.world Demo.ops_two).
Proof.
  split; [apply demo_two|].
  destruct (managers (Demo.world Demo.ops_two) !! 0) as [pm|] eqn:Hm;
    [|vm_compute in Hm; discriminate].
  exists pm. split; [reflexivity|].
  assert (Hres : exists l pid',
            launches (Demo.world Demo.ops_two) !! l = Some (Settled (Ok pid')) /\
            LocalPid_id pid' = LocalPid_id Demo.pid1 /\ pid_processManager pid' = 0).
  { exists 1, Demo.pid1. split; [vm_compute; reflexivity|done]. }
  split; [exact Hres|].
  apply (proj2 (doesOwn_iff_resolved (Demo.world Demo.ops_two) 0 pm Demo.pid1
                  demo_two Hm) Hres).
Defined.

Lemma doesOwn_false_elsewhere_witness :
  fresh_addresses /\
  reachable (Demo.world DemoRuns.ops_managers) /\
  launches (Demo.world DemoRuns.ops_managers) !! 0 = Some (Settled (Ok DemoRuns.pid)) /\
  1 <> pid_processManager DemoRuns.pid /\
  exists pm,
    managers (Demo.world DemoRuns.ops_managers) !! 1 = Some pm /\
    ProcessManager_doesOwn 1 DemoRuns.pid (Demo.world DemoRuns.ops_managers) =
      Some (Ok false, Demo.world DemoRuns.ops_managers).
Proof.
  assert (Hl : launches (Demo.world DemoRuns.ops_managers) !! 0
               = Some (Settled (Ok DemoRuns.pid))) by (vm_compute; reflexivity).
  assert (Hne : 1 <> pid_processManager DemoRuns.pid) by (simpl; lia).
  split; [apply demo_fresh_addresses|]. split; [apply demo_managers|].
  split; [exact Hl|]. split; [exact Hne|].
  destruct (managers (Demo.world DemoRuns.ops_managers) !! 1) as [pm|] eqn:Hm;
    [|vm_compute in Hm; discriminate].
  exists pm. split; [reflexivity|].
  apply (doesOwn_false_elsewhere (Demo.world DemoRuns.ops_managers) 0 DemoRuns.pid
           1 pm demo_fresh_addresses demo_managers Hl Hm Hne).
Defined.

Lemma table_entry_built_for_key_witness :
  reachable (Demo.world Demo.ops_two) /\
  exists pm proc,
    managers (Demo.world Demo.ops_two) !! 0 = Some pm /\
    pm_procs pm !! "id-uu" = Some proc /\
    lp_id proc = "id-uu" /\
    handshake_to pm "id-uu" ∈ deliveries (Demo.world Demo.ops_two).
Proof.
  split; [apply demo_two|].
  destruct (managers (Demo.world Demo.ops_two) !! 0) as [pm|] eqn:Hm;
    [|vm_compute in Hm; discriminate].
  destruct (pm_procs pm !! "id-uu") as [proc|] eqn:Hk;
    [|vm_compute in Hm; injection Hm as <-; vm_compute in Hk; discriminate].
  exists pm, proc. split; [reflexivity|]. split; [exact Hk|].
  destruct (table_entry_built_for_key (Demo.world Demo.ops_two) 0 pm "id-uu" proc
              demo_two Hm Hk) as (Hid & _ & _ & _ & Hsent & _).
  split; [exact Hid|exact Hsent].
Defined.

Lemma table_size_counts_resolved_witness :
  fresh_addresses /\
  reachable (Demo.world Demo.ops_two) /\
  exists pm,
    managers (Demo.world Demo.ops_two) !! 0 = Some pm /\
    registrations 0 (Demo.world Demo.ops_two) = 2 /\
    size (pm_procs pm) = 2.
Proof.
  split; [apply demo_fresh_addresses|]. split; [apply demo_two|].
  destruct (managers (Demo.world Demo.ops_two) !! 0) as [pm|] eqn:Hm;
    [|vm_compute in Hm; discriminate].
  exists pm. split; [reflexivity|].
  assert (Hreg : registrations 0 (Demo.world Demo.ops_two) = 2)
    by (vm_compute; reflexivity).
  split; [exact Hreg|]. rewrite <- Hreg.
  apply (proj1 (table_size_counts_resolved (Demo.world Demo.ops_two) 0 pm
                  demo_fresh_addresses demo_two Hm)).
Defined.

Lemma send_reaches_registered_process_witness :
  reachable (Demo.world Demo.ops_two) /\
  launches (Demo.world Demo.ops_two) !! 1 = Some (Settled (Ok Demo.pid1)) /\
  exists pm proc w',
    LocalPid_send Demo.pid1 (JStr "ping") (Demo.world Demo.ops_two) =
      Some (Ok tt, w') /\
    pm_procs pm !! "id-uu" = Some proc /\
    mb_ownerIdentity (lp_mailbox proc) = "id-uu".
Proof.
  assert (Hl : launches (Demo.world Demo.ops_two) !! 1
               = Some (Settled (Ok Demo.pid1))) by (vm_compute; reflexivity).
  split; [apply demo_two|]. split; [exact Hl|].
  destruct (send_reaches_registered_process (Demo.world Demo.ops_two) 1 Demo.pid1
              (JStr "ping") demo_two Hl) as (pm & proc & _ & Hsend & Hk & Hown).
  exists pm, proc. eexists. split; [exact Hsend|]. split; [exact Hk|exact Hown].
Defined.

Lemma settlements_commute_witness :
  fresh_addresses /\
  reachable (Demo.world DemoRuns.ops_two_pending) /\
  0 <> 1 /\
  launches (Demo.world DemoRuns.ops_two_pending) !! 0 = Some (Pending Demo.pending0) /\
  launches (Demo.world DemoRuns.ops_two_pending) !! 1 = Some (Pending DemoRuns.pending1) /\
  exists w',
    run [OHandshake 0 Demo.reply; OHandshake 1 TimerFires]
      (Demo.world DemoRuns.ops_two_pending) = Some w' /\
    run [OHandshake 1 TimerFires; OHandshake 0 Demo.reply]
      (Demo.world DemoRuns.ops_two_pending) = Some w'.
Proof.
  assert (Hne : 0 <> 1) by lia.
  assert (Hl0 : launches (Demo.world DemoRuns.ops_two_pending) !! 0
                = Some (Pending Demo.pending0)) by (vm_compute; reflexivity).
  assert (Hl1 : launches (Demo.world DemoRuns.ops_two_pending) !! 1
                = Some (Pending DemoRuns.pending1)) by (vm_compute; reflexivity).
  split; [apply demo_fresh_addresses|]. split; [apply demo_two_pending|].
  split; [exact Hne|]. split; [exact Hl0|]. split; [exact Hl1|].
  apply (settlements_commute (Demo.world DemoRuns.ops_two_pending) 0 1
           Demo.pending0 DemoRuns.pending1 Demo.reply TimerFires
           demo_fresh_addresses demo_two_pending Hne Hl0 Hl1).
Defined.

End MoreOnDemo.
